(** * nunif / waifu2x: the checkpoint descriptor and the conversion pipeline

    A shallow embedding of

      - [nunif/models/model.py]              (module [ModelPy]),
      - [waifu2x/cli.py]                     (module [Cli]),
      - [waifu2x/training/downscaling_test.py] (module [Downscaling]),

    and the properties of the specification that concern them.

    Python values are modelled by [pyval], Python dictionaries with string
    keys by stdpp's [gmap string pyval], exceptions by the error type [exn]
    and the sum [result]. *)

From Stdlib Require Import ZArith Ascii String.
From stdpp Require Import gmap strings list list_numbers fin_maps.

Local Open Scope string_scope.
Local Open Scope list_scope.
Local Open Scope Z_scope.

(** ** Python values, dictionaries, exceptions *)

Module Py.

(** The Python values that occur as dictionary values in the sources:
    [None], booleans, integers, strings, and references to objects
    (such as the [self] entry of [locals()]). *)
Inductive pyval : Type :=
| VNone
| VBool (b : bool)
| VInt (z : Z)
| VStr (s : string)
| VObj (id : positive).

#[export] Instance pyval_eq_dec : EqDecision pyval.
Proof. solve_decision. Defined.

(** Errors raised by the external collaborators (codec, network, file
    system) are kept apart from the exceptions the sources raise
    themselves. *)
Definition xerr := string.

Inductive exn : Type :=
| ValueError (msg : string)
| KeyError (key : string)
| TypeError
| IndexError
| External (e : xerr).

#[export] Instance exn_eq_dec : EqDecision exn.
Proof. solve_decision. Defined.

Inductive result (E A : Type) : Type :=
| Ok (a : A)
| Raise (e : E).
Arguments Ok {E A} a.
Arguments Raise {E A} e.

#[export] Instance result_eq_dec {E A} `{EqDecision E, EqDecision A} :
  EqDecision (result E A).
Proof. solve_decision. Defined.

Definition is_ok {E A} (r : result E A) : bool :=
  match r with Ok _ => true | Raise _ => false end.

End Py.
Export Py.

Abbreviation dict := (gmap string pyval).

(** ** nunif/models/model.py *)

Module ModelPy.

(** The attributes [Model.__init__] creates.  [updated_at] is [None] or a
    timestamp (seconds). *)
Record Model : Type := mkModel {
  kwargs : dict;
  updated_at : option Z
}.

(** One iteration of the loop of [register_kwargs]:
    [if name not in {"self"}: self.kwargs[name] = value]. *)
Definition register_item (name : string) (value : pyval) (self : Model) : Model :=
  if decide (name ∈ ["self"]) then self
  else mkModel (<[name := value]> (kwargs self)) (updated_at self).

(** [for name, value in kwargs.items(): ...] *)
Definition register_kwargs (self : Model) (kw : dict) : Model :=
  map_fold register_item self kw.

Definition get_kwargs (self : Model) : dict := kwargs self.

(** [Model.__init__] *)
Definition Model_init (kw : dict) : Model :=
  register_kwargs (mkModel ∅ None) kw.

Definition Model_get_config (self : Model) : dict := ∅.

(** [I2IBaseModel(Model)]: the attributes of the base class and the two
    geometry attributes. *)
Record I2IBaseModel : Type := mkI2I {
  i2i_model : Model;
  i2i_scale : Z;
  i2i_offset : Z
}.

(** [I2IBaseModel.__init__] *)
Definition I2IBaseModel_init (kw : dict) (scale offset : Z) : I2IBaseModel :=
  mkI2I (Model_init kw) scale offset.

(** [I2IBaseModel.get_config] *)
Definition get_config (self : I2IBaseModel) : dict :=
  <["i2i_offset" := VInt (i2i_offset self)]>
    (<["i2i_scale" := VInt (i2i_scale self)]> (Model_get_config (i2i_model self))).

(** *** The registry of transformation kinds *)

(** Modelled from the spec: a transformation kind of the closed registry
    of section 4.1; the subclasses of [I2IBaseModel] and the factory are
    not among the sources.  A kind is a subclass whose
    [__init__(self, **params)] calls
    [I2IBaseModel.__init__(self, locals(), scale=..., offset=...)], its
    scale and offset being determined by its named arguments;
    [kind_accepts] is its constructor signature. *)
Record kind : Type := mkKind {
  kind_name : string;
  kind_accepts : dict → bool;
  kind_scale : dict → Z;
  kind_offset : dict → Z
}.

(** Modelled from the spec: a live transformation instance, the object
    [inst_self] of class [inst_name]. *)
Record instance : Type := mkInstance {
  inst_name : string;
  inst_self : positive;
  inst_model : I2IBaseModel
}.

(** Modelled from the spec: the checkpoint descriptor of section 3,
    without its advisory timestamp. *)
Record descriptor : Type := mkDescriptor {
  transform_id : string;
  params : dict;
  scale : Z;
  offset : Z
}.

(** Modelled from the spec: the two failures of [construct]. *)
Inductive construct_error : Type :=
| UnknownTransformKind
| InvalidParams.

(** Modelled from the spec: [locals()] at the call of the base
    constructor, the named arguments and [self]. *)
Definition locals (self : positive) (p : dict) : dict :=
  <["self" := VObj self]> p.

(** Modelled from the spec: the constructor of a kind, which hands its
    [locals()] and its geometry to [I2IBaseModel.__init__]. *)
Definition kind_init (k : kind) (self : positive) (p : dict) : instance :=
  mkInstance (kind_name k) self
    (I2IBaseModel_init (locals self p) (kind_scale k p) (kind_offset k p)).

(** Modelled from the spec: the lookup of an identifier in the registry. *)
Definition lookup_kind (registry : list kind) (id : string) : option kind :=
  List.find (λ k, bool_decide (kind_name k = id)) registry.

(** Modelled from the spec: [construct(transform_id, params)], which
    "fails with UnknownTransformKind if transform_id is not in the closed
    registry" and "with InvalidParams if params cannot satisfy the kind's
    required constructor signature".  A keyword argument named [self]
    clashes with the receiver, as in Python, so such a mapping satisfies
    no signature. *)
Definition construct (registry : list kind) (self : positive)
    (id : string) (p : dict) : result construct_error instance :=
  match lookup_kind registry id with
  | None => Raise UnknownTransformKind
  | Some k =>
      if bool_decide (p !! "self" = None) && kind_accepts k p
      then Ok (kind_init k self p)
      else Raise InvalidParams
  end.

(** Modelled from the spec: [describe(instance)], which "returns its
    transform_id, captured params, and current scale/offset"; the captured
    params are what [get_kwargs] returns. *)
Definition describe (x : instance) : descriptor :=
  mkDescriptor (inst_name x)
               (get_kwargs (i2i_model (inst_model x)))
               (i2i_scale (inst_model x))
               (i2i_offset (inst_model x)).

(** *** What a sequence of calls has "given" for a name

    The entries handed to the constructor and to later calls of
    [register_kwargs], read as a mapping: a later call overrides an
    earlier one. *)
Definition given (calls : list dict) (name : string) : option pyval :=
  foldl (λ acc d, match d !! name with Some v => Some v | None => acc end)
        None calls.

End ModelPy.


(** ** waifu2x/cli.py *)

Module Cli.

(** *** Path and string functions of the Python library

    [os.path] is [posixpath]; strings are byte strings, and [str.lower]
    acts on the letters A to Z. *)

Definition chars (s : string) : list ascii := list_ascii_of_string s.
Definition str (l : list ascii) : string := string_of_list_ascii l.

(** [s.rfind(c)]: the index of the last occurrence of [c], or [-1]. *)
Fixpoint rfind_from (c : ascii) (l : list ascii) (i last : Z) : Z :=
  match l with
  | [] => last
  | x :: l' => rfind_from c l' (i + 1) (if decide (x = c) then i else last)
  end.

Definition rfind (c : ascii) (s : string) : Z := rfind_from c (chars s) 0 (-1).

(** [genericpath._splitext(p, "/", None, ".")]: the extension starts at
    the last dot of the last path component, unless that component
    consists of leading dots only up to there. *)
Definition splitext (p : string) : string * string :=
  let sepIndex := rfind "/" p in
  let dotIndex := rfind "." p in
  if bool_decide (dotIndex > sepIndex) then
    let filenameIndex := sepIndex + 1 in
    let leading :=
      take (Z.to_nat (dotIndex - filenameIndex))
           (drop (Z.to_nat filenameIndex) (chars p)) in
    if forallb (λ c, bool_decide (c = "."%char)) leading
    then (p, "")
    else (str (take (Z.to_nat dotIndex) (chars p)),
          str (drop (Z.to_nat dotIndex) (chars p)))
  else (p, "").

Definition lower_char (c : ascii) : ascii :=
  let n := nat_of_ascii c in
  if bool_decide (65 ≤ n ≤ 90)%nat then ascii_of_nat (n + 32) else c.

(** [s.lower()] *)
Definition lower (s : string) : string := str (lower_char <$> chars s).

(** [s[1:]] *)
Definition tail (s : string) : string := str (drop 1 (chars s)).

(** [posixpath.basename] *)
Definition basename (p : string) : string :=
  str (drop (Z.to_nat (rfind "/" p + 1)) (chars p)).

(** [posixpath.join(a, b)] *)
Definition path_join (a b : string) : string :=
  match chars b with
  | "/"%char :: _ => b
  | _ =>
      match last (chars a) with
      | None => a +:+ b
      | Some c => if decide (c = "/"%char) then a +:+ b else a +:+ "/" +:+ b
      end
  end.

(** *** The command line ([argparse.Namespace]) *)

Record args : Type := mkArgs {
  model_dir : option string;
  noise_level : Z;
  method : string;
  gpu : list Z;
  batch_size : Z;
  tile_size : Z;
  output : string;
  input : string;
  tta : bool;
  disable_amp : bool;
  depth : option Z;
  format : string;
  style : option string;
  grayscale : bool
}.

(** An iterator as the [for] statement sees it: a finite run of items
    that ends with [StopIteration] or with an exception raised by
    [__next__]. *)
Inductive iterator (A : Type) : Type :=
| StopIteration
| Yield (a : A) (rest : iterator A)
| IterRaise (e : xerr).
Arguments StopIteration {A}.
Arguments Yield {A} a rest.
Arguments IterRaise {A} e.

Fixpoint iter_items {A} (it : iterator A) : list A :=
  match it with
  | Yield a rest => a :: iter_items rest
  | _ => []
  end.

Fixpoint iter_error {A} (it : iterator A) : option xerr :=
  match it with
  | StopIteration => None
  | Yield _ rest => iter_error rest
  | IterRaise e => Some e
  end.

Fixpoint iter_of_list {A} (l : list A) : iterator A :=
  match l with
  | [] => StopIteration
  | a :: l' => Yield a (iter_of_list l')
  end.

Section Pipeline.
Context {image tensor context : Type}.

(** The image library bound to [IL] ([nunif.utils.pil_io] or
    [nunif.utils.wand_io]); every function may raise. *)
Record il_module : Type := mkIL {
  load_image : string → string → bool → result xerr (image * dict);
  to_tensor : image → bool → result xerr (tensor * option tensor);
  to_image : tensor → option tensor → pyval → result xerr image;
  save_image : image → string → dict → string → result xerr unit
}.

(** The arguments of the [ImageLoader] constructor. *)
Record loader_config : Type := mkLoaderConfig {
  lc_files : list string;
  lc_max_queue_size : Z;
  lc_load_func : string → result xerr (image * dict)
}.

(** Everything outside [cli.py]: the image library, the converter
    [Waifu2x], the loader, the file system, and the order in which the
    worker threads of the pool get to run. *)
Record env : Type := mkEnv {
  IL : il_module;
  Waifu2x : string → list Z → result xerr context;
  ctx_load_model : context → string → Z → result xerr context;
  ctx_convert : context → tensor → option tensor → string → Z → Z → Z →
                bool → bool → result xerr (tensor * option tensor);
  ImageLoader : loader_config → iterator (image * dict);
  ImageLoader_listdir : string → list string;
  set_image_ext : string → string → string;
  os_makedirs : string → result xerr unit;
  path_isdir : string → bool;
  csv_rows : string → result xerr (list (list string));
  module_dir : string;
  pool_schedule : nat → nat → bool
}.

(** The calls of external functions made by the main thread, in order. *)
Inductive event : Type :=
| EvWaifu2x (dir : string)
| EvLoadModel (method : string) (noise_level : Z)
| EvOpenList (txt : string)
| EvMakedirs (name : string)
| EvLoadImage (filename : string)
| EvToTensor
| EvConvert
| EvToImage
| EvSaveImage (im : image) (filename : string) (meta : dict) (fmt : string).

(** A task handed to the pool: [IL.save_image(im, filename=.., meta=..,
    format=..)]. *)
Record save_task : Type := mkTask {
  task_image : image;
  task_filename : string;
  task_meta : dict;
  task_format : string
}.

(** A [concurrent.futures.Future]: the task and, once a worker has run
    it, its outcome. *)
Record future : Type := mkFuture {
  fut_task : save_task;
  fut_outcome : option (result xerr unit)
}.

Record state : Type := mkState {
  trace : list event;
  futures : list future
}.

(** Computations with state and exceptions; an exception keeps the
    effects made so far. *)
Definition M (A : Type) : Type := state → result exn A * state.

Definition ret {A} (a : A) : M A := λ s, (Ok a, s).
Definition raise {A} (e : exn) : M A := λ s, (Raise e, s).
Definition bind {A B} (m : M A) (k : A → M B) : M B :=
  λ s, match m s with
       | (Ok a, s') => k a s'
       | (Raise e, s') => (Raise e, s')
       end.

Notation "'let!' x ':=' m 'in' k" := (bind m (λ x, k))
  (at level 10, x name, m at level 100, k at level 200, only parsing).
Notation "'let!' ' pat ':=' m 'in' k" := (bind m (λ x, match x with pat => k end))
  (at level 10, pat pattern, m at level 100, k at level 200, only parsing).

Definition lift {A} (r : result xerr A) : result exn A :=
  match r with Ok a => Ok a | Raise e => Raise (External e) end.

(** A call of an external function: logged, then its result or its
    exception. *)
Definition call {A} (ev : event) (r : result xerr A) : M A :=
  λ s, (lift r, mkState (trace s ++ [ev]) (futures s)).

(** *** The thread pool and the loops *)

Variable E : env.

(** [cpu_count() // 2 or 1] *)
Definition max_workers (cpu_count : Z) : Z :=
  if bool_decide (cpu_count `div` 2 = 0) then 1 else cpu_count `div` 2.

(** What a worker does with a task. *)
Definition run_task (t : save_task) : result xerr unit :=
  save_image (IL E) (task_image t) (task_filename t) (task_meta t) (task_format t).

Definition finish (f : future) : future :=
  match fut_outcome f with
  | Some _ => f
  | None => mkFuture (fut_task f) (Some (run_task (fut_task f)))
  end.

(** The workers run concurrently with the main thread: after the
    [n]-th submission they have completed the pending futures that
    [pool_schedule E n] selects, and possibly none. *)
Definition workers_run (n : nat) (fs : list future) : list future :=
  imap (λ i f, if pool_schedule E n i then finish f else f) fs.

(** [pool.submit(IL.save_image, ...)]; the handle is appended to
    [futures]. *)
Definition submit (t : save_task) : M unit :=
  λ s, let fs := futures s ++ [mkFuture t None] in
       (Ok tt, mkState (trace s) (workers_run (length fs) fs)).

(** [f.result()] for the [i]-th handle: blocks until the task has run,
    then returns or raises what the task raised. *)
Definition future_result (i : nat) : M unit :=
  λ s, match futures s !! i with
       | None => (Raise IndexError, s)
       | Some f =>
           (match fut_outcome (finish f) with
            | Some r => lift r
            | None => Ok tt
            end,
            mkState (trace s) (<[i := finish f]> (futures s)))
       end.

Fixpoint for_each {A} (l : list A) (body : A → M unit) : M unit :=
  match l with
  | [] => ret tt
  | a :: l' => let! _ := body a in for_each l' body
  end.

Fixpoint for_iter {A} (it : iterator A) (body : A → M unit) : M unit :=
  match it with
  | StopIteration => ret tt
  | Yield a rest => let! _ := body a in for_iter rest body
  | IterRaise e => raise (External e)
  end.

(** [for f in futures: f.result()] *)
Definition wait_results : M unit :=
  λ s, for_each (seq 0 (length (futures s))) future_result s.

(** [with PoolExecutor(...) as pool: body]: a new pool, and on the way
    out, by return or by exception, [shutdown(wait=True)], which lets
    every submitted task run to its end. *)
Definition with_pool {A} (body : M A) : M A :=
  λ s, let '(r, s') := body (mkState (trace s) []) in
       (r, mkState (trace s') (finish <$> futures s')).

(** [d[k]] *)
Definition getitem (d : dict) (k : string) : M pyval :=
  match d !! k with
  | Some v => ret v
  | None => raise (KeyError k)
  end.

(** A path argument must be a string. *)
Definition as_path (v : pyval) : M string :=
  match v with
  | VStr p => ret p
  | _ => raise TypeError
  end.

(** *** [convert_files] *)

Definition convert_files_loader (files : list string) : loader_config :=
  mkLoaderConfig files 128 (λ f, load_image (IL E) f "rgb" true).

(** The body of [for im, meta in tqdm(loader, ncols=60)]. *)
Definition convert_files_body (ctx : context) (a : args) (enable_amp : bool)
    (item : image * dict) : M unit :=
  let '(im, meta) := item in
  let! '(rgb, alpha) := call EvToTensor (to_tensor (IL E) im true) in
  let! '(rgb, alpha) := call EvConvert
      (ctx_convert E ctx rgb alpha (method a) (noise_level a)
         (tile_size a) (batch_size a) (tta a) enable_amp) in
  let! filename := getitem meta "filename" in
  let! filename := as_path filename in
  let output_filename := set_image_ext E (basename filename) (format a) in
  let meta := match depth a with
              | Some d => <["depth" := VInt d]> meta
              | None => meta
              end in
  let depth := match meta !! "depth" with
               | Some v => if decide (v = VNone) then VInt 8 else v
               | None => VInt 8
               end in
  let meta := if grayscale a then <["grayscale" := VBool true]> meta else meta in
  let! img := call EvToImage (to_image (IL E) rgb alpha depth) in
  submit (mkTask img (path_join (output a) output_filename) meta (format a)).

(** The first loop of [convert_files]. *)
Definition convert_loop (ctx : context) (files : list string) (a : args)
    (enable_amp : bool) : M unit :=
  for_iter (ImageLoader E (convert_files_loader files))
           (convert_files_body ctx a enable_amp).

Definition convert_files (ctx : context) (files : list string) (a : args)
    (enable_amp : bool) : M unit :=
  let! _ := call (EvMakedirs (output a)) (os_makedirs E (output a)) in
  with_pool (let! _ := convert_loop ctx files a enable_amp in wait_results).

(** *** [convert_file] *)

Definition image_extensions : list string := ["png"; "webp"; "jpeg"; "jpg"].

Definition convert_file (ctx : context) (a : args) (enable_amp : bool) : M unit :=
  let '(_, ext) := splitext (output a) in
  let fmt := tail (lower ext) in
  if decide (fmt ∉ image_extensions)
  then raise (ValueError ("Unable to recognize image extension: " +:+ fmt))
  else
    let! '(im, meta) := call (EvLoadImage (input a))
                      (load_image (IL E) (input a) "rgb" true) in
    let! '(rgb, alpha) := call EvToTensor (to_tensor (IL E) im true) in
    let! '(rgb, alpha) := call EvConvert
        (ctx_convert E ctx rgb alpha (method a) (noise_level a)
           (tile_size a) (batch_size a) (tta a) enable_amp) in
    let meta := match depth a with
                | Some d => <["depth" := VInt d]> meta
                | None => meta
                end in
    let depth := match meta !! "depth" with
                 | Some v => if decide (v = VNone) then VInt 8 else v
                 | None => VInt 8
                 end in
    let meta := if grayscale a then <["grayscale" := VBool true]> meta else meta in
    let! img := call EvToImage (to_image (IL E) rgb alpha depth) in
    call (EvSaveImage img (output a) meta fmt)
         (save_image (IL E) img (output a) meta fmt).

(** *** [load_files] and [main] *)

(** [row[0]] *)
Definition first_column (row : list string) : M string :=
  match row with
  | [] => raise IndexError
  | x :: _ => ret x
  end.

Fixpoint load_rows (rows : list (list string)) : M (list string) :=
  match rows with
  | [] => ret []
  | row :: rows' =>
      let! x := first_column row in
      let! files := load_rows rows' in
      ret (x :: files)
  end.

Definition load_files (txt : string) : M (list string) :=
  let! rows := call (EvOpenList txt) (csv_rows E txt) in
  load_rows rows.

(** The three default model directories, below the directory of the
    module. *)
Definition pretrained_models : string := path_join (module_dir E) "pretrained_models".
Definition DEFAULT_ART_MODEL_DIR : string :=
  path_join (path_join pretrained_models "swin_unet") "art".
Definition DEFAULT_ART_SCAN_MODEL_DIR : string :=
  path_join (path_join pretrained_models "swin_unet") "art_scan".
Definition DEFAULT_PHOTO_MODEL_DIR : string :=
  path_join (path_join pretrained_models "swin_unet") "photo".

Definition select_model_dir (a : args) : string :=
  match model_dir a with
  | None =>
      if decide (style a = Some "photo") then DEFAULT_PHOTO_MODEL_DIR
      else if decide (style a ∈ [Some "scan"; Some "art_scan"])
           then DEFAULT_ART_SCAN_MODEL_DIR
           else DEFAULT_ART_MODEL_DIR
  | Some d => d
  end.

Definition main (a : args) : M unit :=
  let! ctx := call (EvWaifu2x (select_model_dir a)) (Waifu2x E (select_model_dir a) (gpu a)) in
  let! ctx := call (EvLoadModel (method a) (noise_level a))
             (ctx_load_model E ctx (method a) (noise_level a)) in
  if path_isdir E (input a)
  then convert_files ctx (ImageLoader_listdir E (input a)) a (negb (disable_amp a))
  else if decide (snd (splitext (input a)) ∈ [".txt"; ".csv"])
       then let! files := load_files (input a) in
            convert_files ctx files a (negb (disable_amp a))
       else convert_file ctx a (negb (disable_amp a)).

End Pipeline.

Arguments il_module image tensor : clear implicits.
Arguments loader_config image : clear implicits.
Arguments env image tensor context : clear implicits.
Arguments event image : clear implicits.
Arguments save_task image : clear implicits.
Arguments future image : clear implicits.
Arguments state image : clear implicits.
Arguments M image A : clear implicits.

End Cli.

(** ** The queue of the image loader *)

Module Loader.
Import Cli.

Section Queue.
Context {image : Type}.

(** What [load_func] returns for a file. *)
Definition decoded : Type := result xerr (image * dict).

(** Modelled from the spec: the state of [ImageLoader]
    ([nunif.utils.image_loader], not among the sources), after section
    4.4: a single producer reads the source files and pushes decoded
    images into a bounded queue, from which a single consumer pulls one
    decoded image at a time. *)
Record loader_state : Type := mkLoader {
  pending : list string;
  queue : list decoded;
  delivered : list decoded
}.

(** Modelled from the spec: the loader before its first step, all files
    still to be read. *)
Definition init (cfg : loader_config image) : loader_state :=
  mkLoader (lc_files cfg) [] [].

(** Modelled from the spec: the producer's push of the next decoded image;
    "pushing blocks when the queue is full" ([None]: the producer cannot
    move), the capacity being [max_queue_size]. *)
Definition push (cfg : loader_config image) (s : loader_state) : option loader_state :=
  match pending s with
  | [] => None
  | f :: rest =>
      if bool_decide (Z.of_nat (length (queue s)) < lc_max_queue_size cfg)
      then Some (mkLoader rest (queue s ++ [lc_load_func cfg f]) (delivered s))
      else None
  end.

(** Modelled from the spec: the consumer's pop; "pop blocks on empty
    queue". *)
Definition pop (s : loader_state) : option loader_state :=
  match queue s with
  | [] => None
  | x :: q => Some (mkLoader (pending s) q (delivered s ++ [x]))
  end.

(** Modelled from the spec: which of the two threads moves next. *)
Inductive action : Type :=
| Push
| Pop.

(** Modelled from the spec: one move of the thread whose turn it is. *)
Definition step (cfg : loader_config image) (act : action) (s : loader_state)
    : option loader_state :=
  match act with
  | Push => push cfg s
  | Pop => pop s
  end.

(** Modelled from the spec: an interleaving of the producer and the
    consumer; a thread that is blocked when its turn comes leaves the state
    as it is. *)
Fixpoint run (cfg : loader_config image) (acts : list action) (s : loader_state)
    : loader_state :=
  match acts with
  | [] => s
  | act :: acts' => run cfg acts' (default s (step cfg act s))
  end.

End Queue.
Arguments loader_state image : clear implicits.

End Loader.

(** ** waifu2x/training/downscaling_test.py *)

Module Downscaling.

Section Images.
Context {pixel : Type}.

(** A PIL image: [im.size = (width, height)] and the pixel rows, top to
    bottom, each left to right. *)
Record image : Type := mkImage {
  size : Z * Z;
  rows : list (list pixel)
}.

Definition width (im : image) : Z := fst (size im).
Definition height (im : image) : Z := snd (size im).

Definition wf_image (im : image) : Prop :=
  0 ≤ width im ∧ 0 ≤ height im
  ∧ length (rows im) = Z.to_nat (height im)
  ∧ Forall (λ r, length r = Z.to_nat (width im)) (rows im).

(** [im.getpixel((x, y))], [None] outside the image. *)
Definition getpixel (im : image) (x y : Z) : option pixel :=
  if decide (0 ≤ x ∧ 0 ≤ y)
  then row ← rows im !! Z.to_nat y; row !! Z.to_nat x
  else None.

(** [torchvision.transforms.functional.pad(im, (left, top, right, bottom))]
    on a PIL image, constant mode, which is [PIL.ImageOps.expand]: a new
    image of size [(left + w + right, top + h + bottom)] filled with
    [fill], the source pasted at [(left, top)].  A negative padding
    makes the canvas smaller, so the paste crops. *)
Definition TF_pad (fill : pixel) (im : image) (padding : Z * Z * Z * Z) : image :=
  let '(pad_left, pad_top, pad_right, pad_bottom) := padding in
  let W := pad_left + width im + pad_right in
  let H := pad_top + height im + pad_bottom in
  mkImage (W, H)
    ((λ y, (λ x, default fill (getpixel im (x - pad_left) (y - pad_top)))
             <$> seqZ 0 W)
       <$> seqZ 0 H).

(** [modcrop] *)
Definition modcrop (fill : pixel) (im : image) : image :=
  let '(w, h) := size im in
  let w_pad := - (w `mod` 4) in
  let h_pad := - (h `mod` 4) in
  if bool_decide (w_pad ≠ 0) || bool_decide (h_pad ≠ 0)
  then TF_pad fill im (0, 0, w_pad, h_pad)
  else im.

End Images.
Arguments image pixel : clear implicits.

End Downscaling.

(** ** A small world to run the pipeline in

    Images and tensors are strings: an image is the name of the file it
    was decoded from, and the empty string is an image that cannot be
    converted.  A file is corrupt when [load_image] raises on it, and
    unwritable when [save_image] raises on its image. *)

Module Demo.
Import Cli.

Definition demo_IL (corrupt unwritable : list string) : il_module string string :=
  mkIL (λ f _ _, if decide (f ∈ corrupt)
                 then Raise ("cannot decode " +:+ f)
                 else Ok (f, {["filename" := VStr f]}))
       (λ im _, if decide (im = "") then Raise "not an image" else Ok (im, None))
       (λ rgb _ _, Ok rgb)
       (λ im filename _ _, if decide (im ∈ unwritable)
                           then Raise ("cannot write " +:+ filename)
                           else Ok tt).

(** What an iterator over files can do with a file that fails to decode:
    raise from [__next__], leave the file out, or yield a broken item. *)
Inductive on_decode_error : Type :=
| Propagate
| LeaveOut
| YieldBroken.

Fixpoint demo_loader (policy : on_decode_error)
    (load : string → result xerr (string * dict)) (files : list string)
    : iterator (string * dict) :=
  match files with
  | [] => StopIteration
  | f :: files' =>
      match load f with
      | Ok item => Yield item (demo_loader policy load files')
      | Raise e =>
          match policy with
          | Propagate => IterRaise e
          | LeaveOut => demo_loader policy load files'
          | YieldBroken => Yield ("", ∅) (demo_loader policy load files')
          end
      end
  end.

Definition demo_rows : list (list string) :=
  [ ["in/1.png"; "first"]; ["in/2.png"]; ["in/3.png"; "third"; "x"] ].

Definition demo_env (policy : on_decode_error) (corrupt unwritable : list string)
    (schedule : nat → nat → bool) : env string string unit :=
  mkEnv (demo_IL corrupt unwritable)
        (λ _ _, Ok tt)
        (λ ctx _ _, Ok ctx)
        (λ _ rgb alpha _ _ _ _ _ _, Ok (rgb, alpha))
        (λ cfg, demo_loader policy (lc_load_func cfg) (lc_files cfg))
        (λ dir, [dir +:+ "/1.png"; dir +:+ "/2.png"])
        (λ name fmt, (splitext name).1 +:+ "." +:+ fmt)
        (λ _, Ok tt)
        (λ p, bool_decide (p = "in"))
        (λ p, if decide (p = "list.txt") then Ok demo_rows else Raise "no such file")
        "/opt/waifu2x"
        schedule.

Definition demo_args (input output : string) (grayscale : bool) : args :=
  mkArgs None 0 "noise_scale" [0] 4 256 output input false false None "png" None grayscale.

Definition five_files : list string :=
  ["in/1.png"; "in/2.png"; "in/3.png"; "in/4.png"; "in/5.png"].

(** Workers that run a task only when somebody waits for it, and workers
    that finish every second handle as soon as it is submitted. *)
Definition lazy_workers : nat → nat → bool := λ _ _, false.
Definition eager_workers : nat → nat → bool := λ n i, Nat.even (n + i).

Definition start : state string := mkState [] [].

End Demo.

(** ** The start-up code of [waifu2x/cli.py] *)

Module CliMain.

(** The values [--method] accepts. *)
Definition method_choices : list string :=
  ["scale4x"; "scale2x"; "noise_scale4x"; "noise_scale2x";
   "scale"; "noise"; "noise_scale"].

(** [# alias for typo]: [scale2x] is [scale], [noise_scale2x] is
    [noise_scale]. *)
Definition alias_method (method : string) : string :=
  if decide (method = "scale2x") then "scale"
  else if decide (method = "noise_scale2x") then "noise_scale"
  else method.

End CliMain.

(** ** The rest of [waifu2x/training/downscaling_test.py] *)

Module DownscalingTest.
Import Downscaling.

(** The arguments of the two library calls of [wand_scale]: [IM.resize]
    to [out_size] with a filter and a blur, and [im.save] under
    [out_path]. *)
Record output : Type := mkOutput {
  out_size : Z * Z;
  out_filter : string;
  out_blur : string;
  out_path : string
}.

Definition filter_types : list string := ["box"; "sinc"; "lanczos"; "catrom"; "triangle"].

(** The blurs 1, 0.95 and 1.05, as the file name prints them. *)
Definition blurs : list string := ["1"; "0.95"; "1.05"].

Section Run.
Context {pixel : Type}.

(** [pil_io.load_image_simple]; the shape of the tensor that
    [pil_io.to_tensor] makes of an image; and the resize and save of
    [wand_scale], which may raise. *)
Variable load_image_simple : string → result xerr (image pixel).
Variable tensor_shape : image pixel → Z * Z * Z.
Variable resize_and_save : output → result xerr unit.

(** [wand_scale] up to its library calls: the tensor has shape
    [(c, h, w)]. *)
Definition wand_scale_output (shape : Z * Z * Z) (filename output_dir filter_type : string)
    (scale : Z) (blur : string) : output :=
  let '(c, h, w) := shape in
  let basename := (Cli.splitext (Cli.basename filename)).1 in
  mkOutput (h `div` scale, w `div` scale) filter_type blur
    (Cli.path_join output_dir
       (basename +:+ "_" +:+ filter_type +:+ "_blur" +:+ blur +:+ ".png")).

(** [wand_scale] *)
Definition wand_scale (shape : Z * Z * Z) (filename output_dir filter_type : string)
    (scale : Z) (blur : string) : result xerr output :=
  let out := wand_scale_output shape filename output_dir filter_type scale blur in
  match resize_and_save out with
  | Ok _ => Ok out
  | Raise e => Raise e
  end.

(** A loop of calls that stops at the first exception: the outputs
    written, and the exception, if any. *)
Fixpoint until_error (calls : list (result xerr output)) : list output * option xerr :=
  match calls with
  | [] => ([], None)
  | Raise e :: _ => ([], Some e)
  | Ok out :: calls' =>
      let '(outs, err) := until_error calls' in (out :: outs, err)
  end.

(** [downscaling_test]: the calls of [wand_scale] in the order of the two
    loops. *)
Definition downscaling_test (fill : pixel) (filename output_dir : string) (scale : Z)
    : list output * option xerr :=
  match load_image_simple filename with
  | Raise e => ([], Some e)
  | Ok im =>
      let im := modcrop fill im in
      let shape := tensor_shape im in
      until_error
        (filter_type ← filter_types;
         blur ← blurs;
         [wand_scale shape filename output_dir filter_type scale blur])
  end.

(** The loop of [main] over the files. *)
Fixpoint run_files (fill : pixel) (files : list string) (output_dir : string) (scale : Z)
    : list output * option xerr :=
  match files with
  | [] => ([], None)
  | filename :: files' =>
      match downscaling_test fill filename output_dir scale with
      | (outs, Some e) => (outs, Some e)
      | (outs, None) =>
          let '(outs', err) := run_files fill files' output_dir scale in
          (outs ++ outs', err)
      end
  end.

(** [main]: a directory is listed, anything else is one file. *)
Definition main (isdir : string → bool) (list_images : string → list string)
    (makedirs : string → result xerr unit)
    (fill : pixel) (input output_dir : string) (scale : Z) : list output * option xerr :=
  let files := if isdir input then list_images input else [input] in
  match makedirs output_dir with
  | Raise e => ([], Some e)
  | Ok _ => run_files fill files output_dir scale
  end.

End Run.

End DownscalingTest.

(** ** Variations of a world *)

Module Worlds.
Import Cli.

Section Variations.
Context {image tensor context : Type}.

(** The same world with other worker timing. *)
Definition with_schedule (E : env image tensor context) (schedule : nat → nat → bool)
    : env image tensor context :=
  mkEnv (IL E) (Waifu2x E) (ctx_load_model E) (ctx_convert E) (ImageLoader E)
        (ImageLoader_listdir E) (set_image_ext E) (os_makedirs E) (path_isdir E)
        (csv_rows E) (module_dir E) schedule.

(** The same world with a read-only file system. *)
Definition with_readonly_fs (E : env image tensor context) : env image tensor context :=
  mkEnv (IL E) (Waifu2x E) (ctx_load_model E) (ctx_convert E) (ImageLoader E)
        (ImageLoader_listdir E) (set_image_ext E) (λ _, Raise "read-only file system")
        (path_isdir E) (csv_rows E) (module_dir E) (pool_schedule E).

(** The same world without model files. *)
Definition without_models (E : env image tensor context) : env image tensor context :=
  mkEnv (IL E) (λ _ _, Raise "model not found") (ctx_load_model E) (ctx_convert E)
        (ImageLoader E) (ImageLoader_listdir E) (set_image_ext E) (os_makedirs E)
        (path_isdir E) (csv_rows E) (module_dir E) (pool_schedule E).

(** The same world with other rows in every list file. *)
Definition with_rows (E : env image tensor context) (rows : list (list string))
    : env image tensor context :=
  mkEnv (IL E) (Waifu2x E) (ctx_load_model E) (ctx_convert E) (ImageLoader E)
        (ImageLoader_listdir E) (set_image_ext E) (os_makedirs E) (path_isdir E)
        (λ _, Ok rows) (module_dir E) (pool_schedule E).

End Variations.

(** The command line with another [--format]. *)
Definition with_format (a : args) (fmt : string) : args :=
  mkArgs (model_dir a) (noise_level a) (method a) (gpu a) (batch_size a)
         (tile_size a) (output a) (input a) (tta a) (disable_amp a) (depth a)
         fmt (style a) (grayscale a).

End Worlds.
(** * Properties *)

(** ** The checkpoint descriptor ([nunif/models/model.py]) *)

Section ModelFacts.
Import ModelPy.

Lemma register_item_kwargs name value self :
  kwargs (register_item name value self) =
    if decide (name = "self") then kwargs self
    else <[name := value]> (kwargs self).
Proof.
  unfold register_item.
  destruct (decide (name ∈ ["self"])) as [Hin|Hin];
    destruct (decide (name = "self")) as [->|Hne]; try done.
  - apply list_elem_of_singleton in Hin. done.
  - exfalso. apply Hin. by apply list_elem_of_singleton.
Qed.

Lemma register_item_updated_at name value self :
  updated_at (register_item name value self) = updated_at self.
Proof. unfold register_item. by case_decide. Qed.

(** The loop of [register_kwargs] as one map operation: the entries of
    [kw] other than [self] override those already captured. *)
Lemma register_kwargs_union self kw :
  kwargs (register_kwargs self kw) = delete "self" kw ∪ kwargs self
  ∧ updated_at (register_kwargs self kw) = updated_at self.
Proof.
  unfold register_kwargs.
  apply (map_fold_weak_ind
           (λ r m, kwargs r = delete "self" m ∪ kwargs self
                   ∧ updated_at r = updated_at self)).
  - by rewrite delete_empty, (left_id_L ∅ (∪)).
  - intros i x m r Hi [IHk IHu]. split.
    + rewrite register_item_kwargs. case_decide as Hs.
      * subst i. by rewrite delete_insert_eq.
      * rewrite delete_insert_ne by done.
        by rewrite <- insert_union_l, IHk.
    + by rewrite register_item_updated_at.
Qed.

Lemma register_kwargs_lookup self kw name :
  kwargs (register_kwargs self kw) !! name =
    if decide (name = "self") then kwargs self !! name
    else match kw !! name with
         | Some v => Some v
         | None => kwargs self !! name
         end.
Proof.
  rewrite (proj1 (register_kwargs_union self kw)), lookup_union.
  case_decide as Hs.
  - subst name. rewrite lookup_delete_eq. by destruct (kwargs self !! "self").
  - rewrite lookup_delete_ne by done.
    destruct (kw !! name), (kwargs self !! name); done.
Qed.

Lemma Model_init_kwargs kw : get_kwargs (Model_init kw) = delete "self" kw.
Proof.
  unfold get_kwargs, Model_init.
  rewrite (proj1 (register_kwargs_union _ kw)). simpl.
  by rewrite (right_id_L ∅ (∪)).
Qed.

Lemma foldl_register_kwargs_lookup calls : ∀ self name,
  kwargs (foldl register_kwargs self calls) !! name =
    if decide (name = "self") then kwargs self !! name
    else foldl (λ acc d, match d !! name with Some v => Some v | None => acc end)
               (kwargs self !! name) calls.
Proof.
  induction calls as [|kw calls IH]; intros self name; simpl.
  - by case_decide.
  - rewrite IH, register_kwargs_lookup. by case_decide.
Qed.

(** C5.  Whatever mapping the constructor receives and whatever mappings
    later calls of [register_kwargs] receive, [get_kwargs] returns
    exactly the entries given (a later call overriding an earlier one)
    except a key named [self]: after construction alone it is the given
    mapping without [self], and [self] is never a key. *)
Theorem get_kwargs_exactly_given_without_self (kw : dict) (calls : list dict) :
  get_kwargs (Model_init kw) = delete "self" kw
  ∧ (∀ name : string,
       get_kwargs (foldl register_kwargs (Model_init kw) calls) !! name =
         if decide (name = "self") then None else given (kw :: calls) name)
  ∧ "self" ∉ dom (get_kwargs (foldl register_kwargs (Model_init kw) calls)).
Proof.
  assert (Hl : ∀ name : string,
       get_kwargs (foldl register_kwargs (Model_init kw) calls) !! name =
         if decide (name = "self") then None else given (kw :: calls) name).
  { intros name. unfold get_kwargs. rewrite foldl_register_kwargs_lookup.
    fold (get_kwargs (Model_init kw)). rewrite Model_init_kwargs.
    case_decide as Hs.
    - subst name. apply lookup_delete_eq.
    - rewrite lookup_delete_ne by done. unfold given. simpl.
      by destruct (kw !! name). }
  split; [apply Model_init_kwargs|]. split; [exact Hl|].
  rewrite not_elem_of_dom, Hl. by case_decide.
Qed.

(** The constructor leaves [updated_at] as it initialises it. *)
Lemma Model_init_updated_at kw : updated_at (Model_init kw) = None.
Proof. unfold Model_init. by rewrite (proj2 (register_kwargs_union _ kw)). Qed.

(** C6 (as amended).  The constructors do not stamp the model:
    immediately after [Model.__init__] (and after [I2IBaseModel.__init__],
    which only calls it and stores the geometry) [updated_at] is [None]. *)
Theorem updated_at_is_None_after_construction (kw : dict) (scale offset : Z) :
  updated_at (Model_init kw) = None
  ∧ updated_at (i2i_model (I2IBaseModel_init kw scale offset)) = None.
Proof. split; apply Model_init_updated_at. Qed.

(** C6, as the specification states it: after construction [updated_at]
    holds a timestamp.  It fails already for the empty argument mapping. *)
Definition holds_timestamp (m : Model) : Prop := is_Some (updated_at m).

Lemma updated_at_not_set_on_construction :
  ¬ holds_timestamp (Model_init ∅).
Proof.
  unfold holds_timestamp. rewrite Model_init_updated_at.
  intros [ts Hts]. discriminate Hts.
Qed.

Lemma lookup_kind_name registry id k :
  lookup_kind registry id = Some k → kind_name k = id.
Proof.
  unfold lookup_kind. intros H. apply find_some in H as [_ H].
  by apply bool_decide_eq_true in H.
Qed.

(** Capturing [locals()] gives back the named arguments. *)
Lemma captured_locals self p :
  p !! "self" = None → get_kwargs (Model_init (locals self p)) = p.
Proof.
  intros Hp. unfold locals.
  by rewrite Model_init_kwargs, delete_insert_eq, delete_id.
Qed.

Lemma describe_kind_init k self p :
  p !! "self" = None →
  describe (kind_init k self p) =
    mkDescriptor (kind_name k) p (kind_scale k p) (kind_offset k p).
Proof.
  intros Hp. unfold describe, kind_init, I2IBaseModel_init. simpl.
  by rewrite captured_locals.
Qed.

(** C4.  Descriptor round trip: rebuilding an instance of a registered
    kind from the identifier and the captured parameters of its
    descriptor succeeds and gives an instance with the same scale and
    offset (and the same identifier and captured parameters). *)
Theorem descriptor_round_trip (registry : list kind) (self self' : positive)
    (id : string) (p : dict) (x : instance) :
  construct registry self id p = Ok x →
  ∃ x', construct registry self' (transform_id (describe x)) (params (describe x)) = Ok x'
        ∧ i2i_scale (inst_model x') = i2i_scale (inst_model x)
        ∧ i2i_offset (inst_model x') = i2i_offset (inst_model x)
        ∧ describe x' = describe x.
Proof.
  intros Hc. unfold construct in Hc.
  destruct (lookup_kind registry id) as [k|] eqn:Hk; [|done].
  destruct (bool_decide (p !! "self" = None)) eqn:Hself; [|done].
  destruct (kind_accepts k p) eqn:Hacc; [|done].
  injection Hc as <-. apply bool_decide_eq_true in Hself.
  rewrite describe_kind_init by done. cbn [transform_id params].
  unfold construct.
  rewrite (lookup_kind_name _ _ _ Hk), Hk, bool_decide_eq_true_2, Hacc by done.
  eexists. split; [reflexivity|].
  rewrite describe_kind_init by done.
  by rewrite (lookup_kind_name _ _ _ Hk).
Qed.

(** A registry with one kind whose scale is one of its named arguments. *)
Definition example_kind : kind :=
  mkKind "example.upscaler"
         (λ p, bool_decide (is_Some (p !! "scale_factor")))
         (λ p, match p !! "scale_factor" with Some (VInt s) => s | _ => 1 end)
         (λ _, 8).

Definition example_params : dict :=
  <["scale_factor" := VInt 4]> (<["in_channels" := VInt 3]> ∅).

Lemma descriptor_round_trip_witness :
  ∃ x', construct [example_kind] 2%positive
          (transform_id (describe (kind_init example_kind 1%positive example_params)))
          (params (describe (kind_init example_kind 1%positive example_params))) = Ok x'
        ∧ i2i_scale (inst_model x') = 4
        ∧ i2i_offset (inst_model x') = 8
        ∧ describe x' = describe (kind_init example_kind 1%positive example_params).
Proof.
  apply (descriptor_round_trip [example_kind] 1%positive 2%positive
           "example.upscaler" example_params).
  vm_compute. reflexivity.
Defined.

End ModelFacts.

(** ** The conversion pipeline ([waifu2x/cli.py]) *)

Section PoolFacts.
Import Cli.
Context {image tensor context : Type} (E : env image tensor context).

Local Abbreviation M := (M image).
Local Abbreviation state := (state image).
Local Abbreviation future := (future image).
Local Abbreviation save_task := (save_task image).
Implicit Types (s : state) (f : future) (fs : list future) (ts : list save_task).

(** The tasks submitted so far, in submission order. *)
Definition tasks (s : state) : list save_task := fut_task <$> futures s.

(** A future that is done holds the outcome of its own task. *)
Definition finished (f : future) : Prop :=
  fut_outcome f = Some (run_task E (fut_task f)).

(** A future of the pool is pending or finished. *)
Definition consistent (f : future) : Prop :=
  fut_outcome f = None ∨ finished f.

(** The exception [for f in futures: f.result()] ends with: that of the
    first task, in submission order, that failed. *)
Fixpoint first_failure (ts : list save_task) : result exn unit :=
  match ts with
  | [] => Ok tt
  | t :: ts' =>
      match run_task E t with
      | Ok _ => first_failure ts'
      | Raise e => Raise (External e)
      end
  end.

(** The errors of all the tasks that failed. *)
Definition failures (ts : list save_task) : list exn :=
  omap (λ t, match run_task E t with
             | Ok _ => None
             | Raise e => Some (External e)
             end) ts.

(** The output files written: the tasks that succeeded. *)
Definition written (ts : list save_task) : list save_task :=
  filter (λ t, is_ok (run_task E t) = true) ts.

Lemma tasks_mk tr fs : tasks (mkState tr fs) = fut_task <$> fs.
Proof. reflexivity. Qed.

Lemma finish_task f : fut_task (finish E f) = fut_task f.
Proof. unfold finish. by destruct (fut_outcome f). Qed.

Lemma finish_finished f : consistent f → finished (finish E f).
Proof.
  unfold finish, consistent, finished. intros [Hn|Hf].
  - by rewrite Hn.
  - by rewrite Hf.
Qed.

Lemma finished_consistent f : finished f → consistent f.
Proof. by right. Qed.

Lemma finish_consistent f : consistent f → consistent (finish E f).
Proof. intros. by apply finished_consistent, finish_finished. Qed.

Lemma workers_run_tasks n fs : fut_task <$> workers_run E n fs = fut_task <$> fs.
Proof.
  unfold workers_run. apply list_eq. intros i.
  rewrite !list_lookup_fmap, list_lookup_imap.
  destruct (fs !! i) as [f|]; simpl; [|done].
  destruct (pool_schedule E n i); by rewrite ?finish_task.
Qed.

Lemma workers_run_consistent n fs :
  Forall consistent fs → Forall consistent (workers_run E n fs).
Proof.
  rewrite !Forall_lookup. intros Hfs i f. unfold workers_run.
  rewrite list_lookup_imap. destruct (fs !! i) as [f0|] eqn:Hi; simpl; [|done].
  intros [= <-]. specialize (Hfs i f0 Hi).
  destruct (pool_schedule E n i); [by apply finish_consistent|done].
Qed.

Lemma fmap_finish_tasks fs : fut_task <$> (finish E <$> fs) = fut_task <$> fs.
Proof.
  rewrite <- list_fmap_compose. apply list_fmap_ext. intros i f _. simpl.
  apply finish_task.
Qed.

Lemma fmap_finish_finished fs :
  Forall consistent fs → Forall finished (finish E <$> fs).
Proof.
  intros H. apply Forall_fmap. eapply Forall_impl; [exact H|].
  intros f. simpl. apply finish_finished.
Qed.

(** *** Waiting for the results *)

Lemma future_result_spec i s f :
  futures s !! i = Some f → consistent f →
  future_result E i s =
    (lift (run_task E (fut_task f)),
     mkState (trace s) (<[i := finish E f]> (futures s))).
Proof.
  intros Hi Hf. unfold future_result. rewrite Hi.
  by rewrite (finish_finished f Hf), finish_task.
Qed.

Lemma for_each_result_spec n : ∀ i s,
  (i + n = length (futures s))%nat →
  Forall consistent (futures s) →
  ∃ fs', for_each (seq i n) (future_result E) s =
           (first_failure (drop i (tasks s)), mkState (trace s) fs')
         ∧ fut_task <$> fs' = tasks s
         ∧ Forall consistent fs'.
Proof.
  induction n as [|n IH]; intros i s Hlen Hcons; simpl.
  - exists (futures s). unfold ret. destruct s as [tr fs]; simpl in *.
    rewrite drop_ge by (unfold tasks; rewrite length_fmap; simpl; lia).
    done.
  - destruct (lookup_lt_is_Some_2 (futures s) i) as [f Hf]; [lia|].
    assert (Hcf : consistent f) by (by eapply Forall_lookup_1).
    unfold bind. rewrite (future_result_spec i s f Hf Hcf).
    assert (Htl : drop i (tasks s) = fut_task f :: drop (S i) (tasks s)).
    { apply drop_S. unfold tasks. by rewrite list_lookup_fmap, Hf. }
    rewrite Htl. simpl.
    assert (Htasks : fut_task <$> <[i:=finish E f]> (futures s) = tasks s).
    { unfold tasks. rewrite list_fmap_insert, finish_task.
      apply list_insert_id. by rewrite list_lookup_fmap, Hf. }
    assert (Hcons' : Forall consistent (<[i:=finish E f]> (futures s))).
    { apply Forall_insert; [done|by apply finish_consistent]. }
    destruct (run_task E (fut_task f)) as [[]|e]; simpl.
    + destruct (IH (S i) (mkState (trace s) (<[i:=finish E f]> (futures s))))
        as (fs' & Hrun & Ht & Hc); simpl.
      { rewrite length_insert. lia. }
      { done. }
      exists fs'. rewrite Hrun. unfold tasks at 1. simpl.
      rewrite Htasks. split; [done|]. split; [|done].
      by rewrite Ht.
    + eexists. split; [reflexivity|]. done.
Qed.

Lemma wait_results_spec s :
  Forall consistent (futures s) →
  ∃ fs', wait_results E s = (first_failure (tasks s), mkState (trace s) fs')
         ∧ fut_task <$> fs' = tasks s
         ∧ Forall consistent fs'.
Proof.
  intros Hcons. unfold wait_results.
  destruct (for_each_result_spec (length (futures s)) 0%nat s) as (fs' & H & Ht & Hc);
    [lia|done|].
  exists fs'. by rewrite H.
Qed.

(** *** The metadata handed to [save_image] *)

(** What [convert_files] and [convert_file] do to the metadata of an
    image between load and save: [depth] is overwritten when the
    command line gives one, [grayscale] is set when the flag is given,
    every other entry is as the loader returned it. *)
Definition carried (a : args) (meta meta' : dict) : Prop :=
  ∀ k : string,
    meta' !! k =
      if decide (k = "grayscale")
      then (if grayscale a then Some (VBool true) else meta !! k)
      else if decide (k = "depth")
           then (match depth a with Some d => Some (VInt d) | None => meta !! k end)
           else meta !! k.

Lemma carried_updates a (meta : dict) :
  carried a meta
    (if grayscale a
     then <["grayscale" := VBool true]>
            (match depth a with Some d => <["depth" := VInt d]> meta | None => meta end)
     else match depth a with Some d => <["depth" := VInt d]> meta | None => meta end).
Proof.
  intros k. destruct (grayscale a), (depth a) as [d|];
    repeat case_decide; simplify_map_eq; done.
Qed.

Lemma carried_unchanged a (meta meta' : dict) :
  depth a = None → grayscale a = false → carried a meta meta' → meta' = meta.
Proof.
  intros Hd Hg Hc. apply map_eq. intros k. rewrite (Hc k), Hd, Hg.
  by repeat case_decide.
Qed.

Lemma carried_unchanged_all a (items : list (image * dict)) ts :
  depth a = None → grayscale a = false →
  Forall2 (λ item t, carried a item.2 (task_meta t)) items ts →
  task_meta <$> ts = snd <$> items.
Proof.
  intros Hd Hg. induction 1 as [|[im meta] t its ts' Hc _ IH]; [done|].
  cbn. f_equal; [|exact IH]. by apply (carried_unchanged a).
Qed.

(** *** One iteration of the loop of [convert_files] *)

Lemma submit_spec t s :
  Forall consistent (futures s) →
  (submit E t s).1 = Ok tt
  ∧ trace (submit E t s).2 = trace s
  ∧ tasks (submit E t s).2 = tasks s ++ [t]
  ∧ Forall consistent (futures (submit E t s).2).
Proof.
  intros Hc. unfold submit, tasks. simpl.
  rewrite workers_run_tasks, fmap_app. simpl.
  repeat split. apply workers_run_consistent, Forall_app. split; [done|].
  apply Forall_singleton. by left.
Qed.

Definition log (ev : event image) (s : state) : state :=
  mkState (trace s ++ [ev]) (futures s).

Lemma bind_call_ok {A B} ev (r : result xerr A) (k : A → M B) x s :
  r = Ok x → bind (call ev r) k s = k x (log ev s).
Proof. by intros ->. Qed.

Lemma bind_call_raise {A B} ev (r : result xerr A) (k : A → M B) e s :
  r = Raise e → bind (call ev r) k s = (Raise (External e), log ev s).
Proof. by intros ->. Qed.

Lemma bind_ret {A B} (x : A) (k : A → M B) s : bind (ret x) k s = k x s.
Proof. done. Qed.

Lemma bind_raise {A B} e (k : A → M B) s : bind (raise e) k s = (Raise e, s).
Proof. done. Qed.

Ltac call_step H :=
  match goal with
  | |- context [bind (call ?ev ?r) ?k ?s] =>
      let x := fresh "x" in
      let e := fresh "e" in
      destruct r as [x|e] eqn:H;
      [ rewrite (bind_call_ok ev (Ok x) k x s eq_refl)
      | rewrite (bind_call_raise ev (Raise e) k e s eq_refl) ]
  end.

Lemma convert_files_body_spec ctx a amp im (meta : dict) s :
  Forall consistent (futures s) →
  Forall consistent (futures (convert_files_body E ctx a amp (im, meta) s).2)
  ∧ ( ((convert_files_body E ctx a amp (im, meta) s).1 = Ok tt
       ∧ ∃ t, tasks (convert_files_body E ctx a amp (im, meta) s).2 = tasks s ++ [t]
              ∧ carried a meta (task_meta t))
      ∨ (∃ e, (convert_files_body E ctx a amp (im, meta) s).1 = Raise e
              ∧ tasks (convert_files_body E ctx a amp (im, meta) s).2 = tasks s) ).
Proof.
  intros Hc. unfold convert_files_body.
  call_step H1; [|split; [done|right; eauto]].
  destruct x as [rgb alpha].
  call_step H2; [|split; [done|right; eauto]].
  destruct x as [rgb' alpha'].
  unfold getitem.
  destruct (meta !! "filename") as [v|];
    [rewrite bind_ret | rewrite bind_raise; split; [done|right; eauto] ].
  destruct v as [ | | |p| ]; simpl as_path;
    rewrite ?bind_raise; try (split; [done|right; eauto]).
  rewrite bind_ret.
  call_step H3; [|split; [done|right; eauto]].
  match goal with |- context [submit E ?t ?s0] =>
    destruct (submit_spec t s0) as (Hr & _ & Ht & Hc'); [done|] end.
  split; [done|]. left. split; [done|].
  eexists. split; [exact Ht|]. simpl. apply carried_updates.
Qed.

(** *** The loop over the loader *)

Lemma for_iter_body_spec ctx a amp (it : iterator (image * dict)) : ∀ s,
  Forall consistent (futures s) →
  Forall consistent (futures (for_iter it (convert_files_body E ctx a amp) s).2)
  ∧ ∃ new,
      tasks (for_iter it (convert_files_body E ctx a amp) s).2 = tasks s ++ new
      ∧ Forall2 (λ item t, carried a item.2 (task_meta t))
                (take (length new) (iter_items it)) new
      ∧ ((for_iter it (convert_files_body E ctx a amp) s).1 = Ok tt →
         length new = length (iter_items it) ∧ iter_error it = None).
Proof.
  induction it as [|[im meta] rest IH|e]; intros s Hc;
    cbn [for_iter iter_items iter_error].
  - split; [done|]. exists []. by rewrite app_nil_r.
  - pose proof (convert_files_body_spec ctx a amp im meta s Hc) as Hspec.
    unfold bind.
    destruct (convert_files_body E ctx a amp (im, meta) s) as [r1 s1].
    cbn [fst snd] in Hspec.
    destruct Hspec as (Hc1 & [(-> & t & Ht & Hcar)|(e & -> & Ht)]).
    + destruct (IH s1 Hc1) as (Hc2 & new & Hnew & Hall & Hok).
      split; [done|]. exists (t :: new). rewrite Hnew, Ht, <- app_assoc.
      split; [done|]. cbn [length take]. split; [by constructor|].
      intros Hrun. destruct (Hok Hrun) as [-> ->]. done.
    + cbn [fst snd]. split; [done|]. exists []. rewrite app_nil_r.
      split; [done|]. split; [constructor|]. intros [=].
  - unfold raise. cbn [fst snd]. split; [done|]. exists []. rewrite app_nil_r.
    split; [done|]. split; [constructor|]. intros [=].
Qed.

(** *** [convert_files] as a whole

    Started with an empty list of handles, [convert_files] ends with
    every submitted task run; the tasks correspond, in order, to the
    first items of the loader; and its outcome is the failure of
    [os.makedirs], else the exception that ended the loop, else that of
    the first task that failed. *)
Lemma convert_files_spec ctx files a amp tr :
  let run := convert_files E ctx files a amp (mkState tr []) in
  let items := iter_items (ImageLoader E (convert_files_loader E files)) in
  Forall finished (futures run.2)
  ∧ Forall2 (λ item t, carried a item.2 (task_meta t))
            (take (length (tasks run.2)) items) (tasks run.2)
  ∧ match os_makedirs E (output a) with
    | Raise e => run.1 = Raise (External e) ∧ tasks run.2 = []
    | Ok _ =>
        match (convert_loop E ctx files a amp
                 (mkState (tr ++ [EvMakedirs (output a)]) [])).1 with
        | Raise e => run.1 = Raise e
        | Ok _ => run.1 = first_failure (tasks run.2)
                  ∧ length (tasks run.2) = length items
        end
    end.
Proof.
  intros run items. subst run. unfold convert_files.
  call_step Hmk.
  { destruct x. unfold with_pool, log. cbn [trace futures].
    set (s1 := mkState (tr ++ [EvMakedirs (output a)]) []).
    destruct (for_iter_body_spec ctx a amp
                (ImageLoader E (convert_files_loader E files)) s1)
      as (Hc1 & new & Hnew & Hall & Hok); [constructor|].
    fold items in Hall, Hok.
    unfold bind. fold (convert_loop E ctx files a amp) in *.
    destruct (convert_loop E ctx files a amp s1) as [r1 s2] eqn:Hloop.
    cbn [fst snd] in Hc1, Hnew, Hok.
    change (tasks s1) with (@nil save_task) in Hnew. rewrite app_nil_l in Hnew.
    subst new.
    destruct r1 as [[]|e].
    - destruct (wait_results_spec s2 Hc1) as (fs' & Hw & Ht & Hc').
      rewrite Hw. cbn [fst snd futures]. rewrite !tasks_mk, fmap_finish_tasks, Ht.
      split; [by apply fmap_finish_finished|]. split; [done|].
      split; [done|]. by apply Hok.
    - cbn [fst snd futures]. rewrite !tasks_mk, fmap_finish_tasks.
      fold (tasks s2).
      split; [by apply fmap_finish_finished|]. split; [done|]. done. }
  cbn [fst snd]. unfold log, tasks. cbn [futures]. simpl.
  split; [constructor|]. split; [constructor|]. done.
Qed.

(** *** [convert_file] *)

Definition output_format (a : args) : string := tail (lower (splitext (output a)).2).

Definition extension_error (fmt : string) : exn :=
  ValueError ("Unable to recognize image extension: " +:+ fmt).

Lemma convert_file_bad_extension ctx a amp s :
  output_format a ∉ image_extensions →
  convert_file E ctx a amp s = (Raise (extension_error (output_format a)), s).
Proof.
  intros Hbad. unfold convert_file, output_format in *.
  destruct (splitext (output a)) as [root ext]. cbn [snd] in Hbad.
  by rewrite decide_True.
Qed.

(** With a recognized extension [convert_file] loads the input first;
    it raises what the first failing step raises; when it gets as far as
    [save_image], that is its last call, made with the metadata of the
    load as [carried], and its outcome is the outcome of the run. *)
Lemma convert_file_good_extension ctx a amp s :
  output_format a ∈ image_extensions →
  ∃ new,
    trace (convert_file E ctx a amp s).2 = trace s ++ EvLoadImage (input a) :: new
    ∧ futures (convert_file E ctx a amp s).2 = futures s
    ∧ match load_image (IL E) (input a) "rgb" true with
      | Raise e => (convert_file E ctx a amp s).1 = Raise (External e) ∧ new = []
      | Ok (im, meta) =>
          (∃ e (k : nat), (convert_file E ctx a amp s).1 = Raise (External e)
                ∧ new = take k [EvToTensor; EvConvert; EvToImage])
          ∨ (∃ img meta',
               carried a meta meta'
               ∧ new = [EvToTensor; EvConvert; EvToImage;
                        EvSaveImage img (output a) meta' (output_format a)]
               ∧ (convert_file E ctx a amp s).1 =
                   lift (save_image (IL E) img (output a) meta' (output_format a)))
      end.
Proof.
  intros Hgood. unfold convert_file, output_format in *.
  destruct (splitext (output a)) as [root ext]. cbn [snd] in Hgood.
  rewrite decide_False by (intros Hn; by apply Hn).
  call_step H0; [|exists []; cbn [fst snd log trace futures]; done].
  destruct x as [im meta].
  call_step H1.
  2:{ eexists. cbn [fst snd log trace futures]. rewrite <- ?app_assoc.
      split; [reflexivity|]. split; [done|]. left. by exists e, 1%nat. }
  destruct x as [rgb alpha].
  call_step H2.
  2:{ eexists. cbn [fst snd log trace futures]. rewrite <- ?app_assoc.
      split; [reflexivity|]. split; [done|]. left. by exists e, 2%nat. }
  destruct x as [rgb' alpha'].
  call_step H3.
  2:{ eexists. cbn [fst snd log trace futures]. rewrite <- ?app_assoc.
      split; [reflexivity|]. split; [done|]. left. by exists e, 3%nat. }
  unfold call. eexists. cbn [fst snd log trace futures]. rewrite <- ?app_assoc.
  split; [reflexivity|]. split; [done|]. right.
  eexists _, _. split; [apply carried_updates|]. done.
Qed.

(** *** Batches in which the tasks succeed, or all but one *)

Lemma all_tasks_succeed ts :
  (∀ j t, ts !! j = Some t → run_task E t = Ok tt) →
  first_failure ts = Ok tt ∧ failures ts = [] ∧ written ts = ts.
Proof.
  induction ts as [|t ts IH]; intros Hall; [done|].
  pose proof (Hall 0%nat t eq_refl) as Ht.
  destruct IH as (IH1 & IH2 & IH3); [intros j t' Hj; by apply (Hall (S j))|].
  unfold failures, written in *. cbn [first_failure omap list_omap].
  rewrite filter_cons_True by (by rewrite Ht).
  rewrite Ht. cbn. by rewrite IH1, IH2, IH3.
Qed.

Lemma one_task_fails ts : ∀ i t e,
  ts !! i = Some t → run_task E t = Raise e →
  (∀ j t', j ≠ i → ts !! j = Some t' → run_task E t' = Ok tt) →
  first_failure ts = Raise (External e)
  ∧ failures ts = [External e]
  ∧ written ts = delete i ts.
Proof.
  induction ts as [|t0 ts IH]; intros i t e Hi Ht Hothers; [done|].
  destruct i as [|i]; cbn in Hi.
  - injection Hi as ->.
    destruct (all_tasks_succeed ts) as (_ & H2 & H3).
    { intros j t' Hj. by apply (Hothers (S j)). }
    unfold failures, written in *. cbn [first_failure omap list_omap].
    rewrite filter_cons_False by (by rewrite Ht).
    rewrite Ht. cbn. by rewrite H2, H3.
  - pose proof (Hothers 0%nat t0 ltac:(done) eq_refl) as Ht0.
    destruct (IH i t e Hi Ht) as (IH1 & IH2 & IH3).
    { intros j t' Hj Hj'. apply (Hothers (S j)); [congruence|done]. }
    unfold failures, written in *. cbn [first_failure omap list_omap].
    rewrite filter_cons_True by (by rewrite Ht0).
    rewrite Ht0. cbn. by rewrite IH1, IH2, IH3.
Qed.

(** *** [load_files] *)

Lemma load_rows_spec (rows : list (list string)) s :
  Forall (λ row, row ≠ []) rows →
  load_rows rows s = (Ok (omap head rows), s).
Proof.
  induction 1 as [|row rows Hrow _ IH]; [done|].
  destruct row as [|x row]; [done|].
  cbn [load_rows first_column]. rewrite bind_ret. unfold bind. rewrite IH. done.
Qed.

Lemma load_rows_empty_row (rows rows' : list (list string)) s :
  Forall (λ row, row ≠ []) rows →
  load_rows (rows ++ [] :: rows') s = (Raise IndexError, s).
Proof.
  induction 1 as [|row rows Hrow _ IH]; [done|].
  destruct row as [|x row]; [done|].
  cbn [app load_rows first_column]. rewrite bind_ret. unfold bind. by rewrite IH.
Qed.

Lemma load_files_spec txt (rows : list (list string)) s :
  csv_rows E txt = Ok rows →
  Forall (λ row, row ≠ []) rows →
  load_files E txt s = (Ok (omap head rows), log (EvOpenList txt) s).
Proof.
  intros Hrows Hne. unfold load_files.
  rewrite (bind_call_ok _ _ _ rows _ Hrows). by apply load_rows_spec.
Qed.

End PoolFacts.

Section PipelineClaims.
Import Cli.
Context {image tensor context : Type} (E : env image tensor context).

(** The errors a run surfaces: the exception it ends with, if any. *)
Definition surfaced {S : Type} (run : result exn unit * S) : list exn :=
  match run.1 with
  | Ok _ => []
  | Raise e => [e]
  end.

(** C1 (as amended).  [convert_files] ends, by return or by exception,
    only when every submitted encode/write task has run, and it surfaces
    one error, the first: the failure of [os.makedirs], else the exception
    that ended the loop over the loader, else the exception of the first
    task, in submission order, that failed. *)
Theorem convert_files_waits_for_all_and_raises_first
    (ctx : context) (files : list string) (a : args) (amp : bool)
    (tr : list (event image)) :
  let run := convert_files E ctx files a amp (mkState tr []) in
  Forall (finished E) (futures run.2)
  ∧ match os_makedirs E (output a) with
    | Raise e => run.1 = Raise (External e)
    | Ok _ =>
        match (convert_loop E ctx files a amp
                 (mkState (tr ++ [EvMakedirs (output a)]) [])).1 with
        | Raise e => run.1 = Raise e
        | Ok _ => run.1 = first_failure E (tasks run.2)
        end
    end.
Proof.
  intros run.
  destruct (convert_files_spec E ctx files a amp tr) as (Hfin & _ & Hres).
  fold run in Hfin, Hres. split; [exact Hfin|].
  destruct (os_makedirs E (output a)); [|by destruct Hres].
  destruct ((convert_loop E ctx files a amp _).1); [by destruct Hres|done].
Qed.

(** C2 (as amended).  In batch mode a failure to encode or write one file
    does not abort the others: when the loop over the loader has gone
    through, every item the loader yielded has been submitted and every
    task has run, and if the task of one file fails and the others do
    not, [convert_files] raises exactly that failure and all the other
    outputs are written.  An exception raised inside the loop (by the
    loader, the decoding to a tensor, or the conversion) ends the job with
    that exception, after the tasks submitted so far have run.  In
    single-file mode a failure to load and a failure to save propagate
    directly. *)
Theorem write_failure_does_not_abort_the_batch
    (ctx : context) (files : list string) (a : args) (amp : bool)
    (tr : list (event image)) (s : state image) :
  let run := convert_files E ctx files a amp (mkState tr []) in
  let items := iter_items (ImageLoader E (convert_files_loader E files)) in
  let loop := convert_loop E ctx files a amp
                (mkState (tr ++ [EvMakedirs (output a)]) []) in
  let single := convert_file E ctx a amp s in
  (os_makedirs E (output a) = Ok tt → loop.1 = Ok tt →
     length (tasks run.2) = length items
     ∧ Forall (finished E) (futures run.2)
     ∧ ∀ i t e,
         tasks run.2 !! i = Some t → run_task E t = Raise e →
         (∀ j t', j ≠ i → tasks run.2 !! j = Some t' → run_task E t' = Ok tt) →
         run.1 = Raise (External e)
         ∧ failures E (tasks run.2) = [External e]
         ∧ written E (tasks run.2) = delete i (tasks run.2))
  ∧ (os_makedirs E (output a) = Ok tt → ∀ e, loop.1 = Raise e →
       run.1 = Raise e
       ∧ Forall (finished E) (futures run.2)
       ∧ (length (tasks run.2) ≤ length items)%nat)
  ∧ (output_format a ∈ image_extensions →
       (∀ e, load_image (IL E) (input a) "rgb" true = Raise e →
             single.1 = Raise (External e))
       ∧ (∀ img fn m f,
            last (trace single.2) = Some (EvSaveImage img fn m f) →
            single.1 = lift (save_image (IL E) img fn m f))).
Proof.
  intros run items loop single.
  destruct (convert_files_spec E ctx files a amp tr) as (Hfin & Hall & Hres).
  fold run items in Hfin, Hall, Hres. fold loop in Hres.
  split; [|split].
  - intros Hmk Hloop. rewrite Hmk, Hloop in Hres. destruct Hres as [Hr Hlen].
    split; [done|]. split; [done|].
    intros i t e Hi Ht Hothers. rewrite Hr.
    by apply (one_task_fails E _ i t e).
  - intros Hmk e Hloop. rewrite Hmk, Hloop in Hres.
    split; [done|]. split; [done|].
    apply Forall2_length in Hall. rewrite length_take in Hall. lia.
  - intros Hgood.
    destruct (convert_file_good_extension E ctx a amp s Hgood)
      as (new & Htr & _ & Hcases).
    fold single in Htr, Hcases. split.
    + intros e He. rewrite He in Hcases. by destruct Hcases.
    + intros img fn m f Hlast. rewrite Htr in Hlast.
      destruct (load_image (IL E) (input a) "rgb" true) as [[im meta]|e].
      * destruct Hcases as [(e & k & _ & ->)|(img' & meta' & _ & -> & Hr)].
        -- exfalso. rewrite last_app in Hlast.
           destruct k as [|[|[|k]]]; cbn in Hlast;
             rewrite ?take_nil in Hlast; cbn in Hlast; congruence.
        -- rewrite last_app in Hlast. cbn in Hlast.
           injection Hlast as <- <- <- <-. exact Hr.
      * destruct Hcases as [_ ->]. rewrite last_app in Hlast. cbn in Hlast.
        congruence.
Qed.

(** C3 (as amended).  The metadata returned by the load reaches the save
    call with every entry unchanged except [depth], which is overwritten
    by the [--depth] argument when one is given, and [grayscale], which is
    set to [True] under [--grayscale]; with neither option it is
    unmodified.  This holds for every task [convert_files] submits (the
    tasks correspond in order to the first items of the loader) and for
    the save call of [convert_file]. *)
Theorem metadata_carried_from_load_to_save
    (ctx : context) (files : list string) (a : args) (amp : bool)
    (tr : list (event image)) (s : state image) :
  let run := convert_files E ctx files a amp (mkState tr []) in
  let items := iter_items (ImageLoader E (convert_files_loader E files)) in
  let single := convert_file E ctx a amp s in
  Forall2 (λ item t, carried a item.2 (task_meta t))
          (take (length (tasks run.2)) items) (tasks run.2)
  ∧ (depth a = None → grayscale a = false →
       task_meta <$> tasks run.2 = snd <$> take (length (tasks run.2)) items)
  ∧ (∀ im meta new,
       load_image (IL E) (input a) "rgb" true = Ok (im, meta) →
       trace single.2 = trace s ++ new →
       ∀ img fn m f, EvSaveImage img fn m f ∈ new →
         carried a meta m ∧ (depth a = None → grayscale a = false → m = meta)).
Proof.
  intros run items single.
  destruct (convert_files_spec E ctx files a amp tr) as (_ & Hall & _).
  fold run items in Hall.
  split; [exact Hall|]. split.
  - intros Hd Hg. by apply (carried_unchanged_all a).
  - intros im meta new Hload Htr img fn m f Hin.
    assert (Hcar : carried a meta m); [|split; [done|]; intros;
                                         by apply (carried_unchanged a)].
    destruct (decide (output_format a ∈ image_extensions)) as [Hgood|Hbad].
    + destruct (convert_file_good_extension E ctx a amp s Hgood)
        as (new' & Htr' & _ & Hcases).
      fold single in Htr', Hcases. rewrite Hload in Hcases.
      rewrite Htr in Htr'. apply app_inv_head in Htr'. subst new.
      destruct Hcases as [(e & k & _ & ->)|(img' & meta' & Hc & -> & _)].
      * exfalso. destruct k as [|[|[|k]]]; cbn in Hin; rewrite ?take_nil in Hin;
          repeat (apply elem_of_cons in Hin as [Hin|Hin]; [discriminate Hin|]);
          by apply elem_of_nil in Hin.
      * repeat (apply elem_of_cons in Hin as [Hin|Hin];
                [first [discriminate Hin | injection Hin as -> -> -> ->; exact Hc]|]).
        by apply elem_of_nil in Hin.
    + exfalso. unfold single in Htr.
      rewrite (convert_file_bad_extension E ctx a amp s Hbad) in Htr.
      cbn in Htr. rewrite <- (app_nil_r (trace s)) in Htr at 1.
      apply app_inv_head in Htr. subst new. by apply elem_of_nil in Hin.
Qed.

(** C7.  [convert_file] raises the unrecognized-extension error exactly
    when the lower-cased extension of the output path, without its dot,
    is not one of png, webp, jpeg, jpg; and then it has done nothing
    else: the state is as before, no image has been loaded, converted or
    written.  With a recognized extension its first action is to load the
    input. *)
Theorem convert_file_rejects_extension_before_processing
    (ctx : context) (a : args) (amp : bool) (s : state image) :
  let fmt := tail (lower (splitext (output a)).2) in
  let run := convert_file E ctx a amp s in
  ((∃ msg, run.1 = Raise (ValueError msg)) ↔ fmt ∉ image_extensions)
  ∧ (fmt ∉ image_extensions →
       run = (Raise (ValueError ("Unable to recognize image extension: " +:+ fmt)), s))
  ∧ (fmt ∈ image_extensions →
       ∃ new, trace run.2 = trace s ++ EvLoadImage (input a) :: new).
Proof.
  intros fmt run. fold (output_format a) in fmt.
  assert (Hbad : fmt ∉ image_extensions →
            run = (Raise (extension_error fmt), s))
    by apply convert_file_bad_extension.
  assert (Hgood : fmt ∈ image_extensions →
            ∃ new, trace run.2 = trace s ++ EvLoadImage (input a) :: new
                   ∧ ∀ msg, run.1 ≠ Raise (ValueError msg)).
  { intros Hin.
    destruct (convert_file_good_extension E ctx a amp s Hin)
      as (new & Htr & _ & Hcases).
    fold run in Htr, Hcases. exists new. split; [done|]. intros msg Hmsg.
    destruct (load_image (IL E) (input a) "rgb" true) as [[im meta]|e].
    - destruct Hcases as [(e & k & Hr & _)|(img & meta' & _ & _ & Hr)];
        rewrite Hr in Hmsg; [discriminate Hmsg|].
      by destruct (save_image (IL E) img (output a) meta' (output_format a)).
    - destruct Hcases as [Hr _]. rewrite Hr in Hmsg. discriminate Hmsg. }
  split; [|split].
  - split.
    + intros [msg Hmsg] Hin. destruct (Hgood Hin) as (new & _ & Hno).
      by apply (Hno msg).
    + intros Hnot. rewrite (Hbad Hnot). by eexists.
  - exact Hbad.
  - intros Hin. destruct (Hgood Hin) as (new & Htr & _). by exists new.
Qed.

(** C9.  When the input is not a directory and its extension is [.txt]
    or [.csv], and every row of the list file has a first column, [main]
    runs [convert_files] on exactly the first column of each row, in row
    order. *)
Theorem main_list_file_first_column
    (a : args) (s : state image) (ctx0 ctx : context) (rows : list (list string)) :
  Waifu2x E (select_model_dir E a) (gpu a) = Ok ctx0 →
  ctx_load_model E ctx0 (method a) (noise_level a) = Ok ctx →
  path_isdir E (input a) = false →
  (splitext (input a)).2 ∈ [".txt"; ".csv"] →
  csv_rows E (input a) = Ok rows →
  Forall (λ row, row ≠ []) rows →
  ∃ files,
    main E a s =
      convert_files E ctx files a (negb (disable_amp a))
        (log (EvOpenList (input a))
           (log (EvLoadModel (method a) (noise_level a))
              (log (EvWaifu2x (select_model_dir E a)) s)))
    ∧ lc_files (convert_files_loader E files) = files
    ∧ length files = length rows
    ∧ ∀ i row, rows !! i = Some row → files !! i = head row.
Proof.
  intros Hw Hl Hdir Hext Hrows Hne. exists (omap head rows).
  split; [|split; [done|]].
  - unfold main.
    rewrite (bind_call_ok _ _ _ ctx0 _ Hw), (bind_call_ok _ _ _ ctx _ Hl), Hdir.
    rewrite decide_True by done.
    unfold bind at 1. by rewrite (load_files_spec E _ rows).
  - clear -Hne. induction Hne as [|row rows Hrow _ [IHlen IH]]; [done|].
    destruct row as [|x row]; [done|]. cbn. split; [by rewrite IHlen|].
    intros [|i] row'; cbn; [by intros [= <-]|apply IH].
Qed.

End PipelineClaims.

(** C1, as the specification states it: the errors of all the handles are
    collected, not just the first. *)
Definition collects_all_errors {image tensor context : Type}
    (E : Cli.env image tensor context)
    (run : result exn unit * Cli.state image) : Prop :=
  surfaced run = failures E (tasks run.2).

(** Three files, the first and the third unwritable: the run ends with the
    error of the first, and that of the third is dropped. *)
Lemma convert_files_drops_later_errors :
  let E := Demo.demo_env Demo.Propagate [] ["in/1.png"; "in/3.png"] Demo.lazy_workers in
  let run := Cli.convert_files E tt ["in/1.png"; "in/2.png"; "in/3.png"]
               (Demo.demo_args "in" "out" false) true Demo.start in
  run.1 = Raise (External "cannot write out/1.png")
  ∧ failures E (tasks run.2)
    = [External "cannot write out/1.png"; External "cannot write out/3.png"]
  ∧ ¬ collects_all_errors E run.
Proof.
  intros E run.
  assert (H1 : run.1 = Raise (External "cannot write out/1.png"))
    by (vm_compute; reflexivity).
  assert (H2 : failures E (tasks run.2)
               = [External "cannot write out/1.png"; External "cannot write out/3.png"])
    by (vm_compute; reflexivity).
  split; [exact H1|]. split; [exact H2|].
  unfold collects_all_errors, surfaced. rewrite H1, H2. discriminate.
Qed.

(** *** A batch of five files *)

(** The run of [convert_files] over [five_files] in the demo world. *)
Definition five_run (policy : Demo.on_decode_error) (corrupt unwritable : list string)
    (schedule : nat → nat → bool) : result exn unit * Cli.state string :=
  Cli.convert_files (Demo.demo_env policy corrupt unwritable schedule) tt
    Demo.five_files (Demo.demo_args "in" "out" false) true Demo.start.

(** The names of the output files a run has written. *)
Definition outputs {image tensor context : Type} (E : Cli.env image tensor context)
    (run : result exn unit * Cli.state image) : list string :=
  Cli.task_filename <$> written E (tasks run.2).

(** C2, as the specification states it for a batch whose third file is
    corrupt: the outputs of the four other files are produced and exactly
    one failure is reported. *)
Definition survives_corrupt_third_file {image tensor context : Type}
    (E : Cli.env image tensor context)
    (run : result exn unit * Cli.state image) : Prop :=
  outputs E run = ["out/1.png"; "out/2.png"; "out/4.png"; "out/5.png"]
  ∧ ∃ e, surfaced run = [e].

(** Whatever the loader does with the corrupt file (raise, leave it out,
    or yield a broken item), the statement fails: either the files after
    it are not processed, or no failure is reported. *)
Lemma corrupt_file_is_not_isolated :
  let E p := Demo.demo_env p ["in/3.png"] [] Demo.lazy_workers in
  let run p := five_run p ["in/3.png"] [] Demo.lazy_workers in
  (outputs (E Demo.Propagate) (run Demo.Propagate) = ["out/1.png"; "out/2.png"]
   ∧ (run Demo.Propagate).1 = Raise (External "cannot decode in/3.png")
   ∧ ¬ survives_corrupt_third_file (E Demo.Propagate) (run Demo.Propagate))
  ∧ (outputs (E Demo.LeaveOut) (run Demo.LeaveOut)
       = ["out/1.png"; "out/2.png"; "out/4.png"; "out/5.png"]
     ∧ (run Demo.LeaveOut).1 = Ok tt
     ∧ ¬ survives_corrupt_third_file (E Demo.LeaveOut) (run Demo.LeaveOut))
  ∧ (outputs (E Demo.YieldBroken) (run Demo.YieldBroken) = ["out/1.png"; "out/2.png"]
     ∧ (run Demo.YieldBroken).1 = Raise (External "not an image")
     ∧ ¬ survives_corrupt_third_file (E Demo.YieldBroken) (run Demo.YieldBroken)).
Proof.
  intros E run.
  assert (H1 : outputs (E Demo.Propagate) (run Demo.Propagate)
               = ["out/1.png"; "out/2.png"]) by (vm_compute; reflexivity).
  assert (H2 : surfaced (run Demo.LeaveOut) = []) by (vm_compute; reflexivity).
  assert (H3 : outputs (E Demo.YieldBroken) (run Demo.YieldBroken)
               = ["out/1.png"; "out/2.png"]) by (vm_compute; reflexivity).
  split; [|split].
  - split; [exact H1|]. split; [vm_compute; reflexivity|].
    intros [Hout _]. rewrite H1 in Hout. discriminate Hout.
  - split; [vm_compute; reflexivity|]. split; [vm_compute; reflexivity|].
    intros [_ [e He]]. rewrite H2 in He. discriminate He.
  - split; [exact H3|]. split; [vm_compute; reflexivity|].
    intros [Hout _]. rewrite H3 in Hout. discriminate Hout.
Qed.

(** The third file unwritable: the four other outputs are written and the
    run ends with the failure of the third, whether the workers run the
    tasks early or only when waited for. *)
Example five_files_third_unwritable :
  outputs (Demo.demo_env Demo.Propagate [] ["in/3.png"] Demo.eager_workers)
          (five_run Demo.Propagate [] ["in/3.png"] Demo.eager_workers)
    = ["out/1.png"; "out/2.png"; "out/4.png"; "out/5.png"]
  ∧ (five_run Demo.Propagate [] ["in/3.png"] Demo.eager_workers).1
    = Raise (External "cannot write out/3.png")
  ∧ five_run Demo.Propagate [] ["in/3.png"] Demo.lazy_workers
    = five_run Demo.Propagate [] ["in/3.png"] Demo.eager_workers.
Proof. repeat split; vm_compute; reflexivity. Qed.

Lemma write_failure_does_not_abort_the_batch_witness :
  let E := Demo.demo_env Demo.Propagate [] ["in/3.png"] Demo.eager_workers in
  let run := five_run Demo.Propagate [] ["in/3.png"] Demo.eager_workers in
  run.1 = Raise (External "cannot write out/3.png")
  ∧ failures E (tasks run.2) = [External "cannot write out/3.png"]
  ∧ written E (tasks run.2) = delete 2%nat (tasks run.2).
Proof.
  intros E run.
  destruct (write_failure_does_not_abort_the_batch E tt Demo.five_files
              (Demo.demo_args "in" "out" false) true [] Demo.start)
    as (Hbatch & _ & _).
  destruct Hbatch as (_ & _ & Hone); [vm_compute; reflexivity..|].
  assert (Htasks : tasks run.2 =
            (λ n, Cli.mkTask ("in/" +:+ n +:+ ".png") ("out/" +:+ n +:+ ".png")
                    {["filename" := VStr ("in/" +:+ n +:+ ".png")]} "png")
              <$> ["1"; "2"; "3"; "4"; "5"])
    by (vm_compute; reflexivity).
  apply (Hone 2%nat
           (Cli.mkTask "in/3.png" "out/3.png" {["filename" := VStr "in/3.png"]} "png")
           "cannot write out/3.png").
  - change (tasks run.2 !! 2%nat = Some
              (Cli.mkTask "in/3.png" "out/3.png" {["filename" := VStr "in/3.png"]} "png")).
    rewrite Htasks. reflexivity.
  - vm_compute. reflexivity.
  - intros j t' Hj Ht'. change (tasks run.2 !! j = Some t') in Ht'.
    rewrite Htasks in Ht'.
    destruct j as [|[|[|[|[|j]]]]]; cbn in Ht';
      [ injection Ht' as <-; vm_compute; reflexivity
      | injection Ht' as <-; vm_compute; reflexivity
      | exfalso; by apply Hj
      | injection Ht' as <-; vm_compute; reflexivity
      | injection Ht' as <-; vm_compute; reflexivity
      | discriminate Ht' ].
Defined.

(** *** The metadata of a single file *)

(** C3, as the specification states it: the metadata of the load reaches
    every save call as it is. *)
Definition metadata_unmodified {image : Type} (loaded : dict)
    (run : result exn unit * Cli.state image) : Prop :=
  ∀ img fn m f, Cli.EvSaveImage img fn m f ∈ Cli.trace run.2 → m = loaded.

(** Under [--grayscale] the save call gets one entry more than the load
    returned. *)
Lemma grayscale_flag_changes_metadata :
  let E := Demo.demo_env Demo.Propagate [] [] Demo.lazy_workers in
  let run := Cli.convert_file E tt (Demo.demo_args "in/1.png" "out/1.png" true)
               true Demo.start in
  Cli.load_image (Cli.IL E) "in/1.png" "rgb" true
    = Ok ("in/1.png", {["filename" := VStr "in/1.png"]})
  ∧ Cli.trace run.2
    = [Cli.EvLoadImage "in/1.png"; Cli.EvToTensor; Cli.EvConvert; Cli.EvToImage;
       Cli.EvSaveImage "in/1.png" "out/1.png"
         (<["grayscale" := VBool true]> {["filename" := VStr "in/1.png"]}) "png"]
  ∧ ¬ metadata_unmodified {["filename" := VStr "in/1.png"]} run.
Proof.
  intros E run.
  assert (Htr : Cli.trace run.2
    = [Cli.EvLoadImage "in/1.png"; Cli.EvToTensor; Cli.EvConvert; Cli.EvToImage;
       Cli.EvSaveImage "in/1.png" "out/1.png"
         (<["grayscale" := VBool true]> {["filename" := VStr "in/1.png"]}) "png"])
    by (vm_compute; reflexivity).
  split; [vm_compute; reflexivity|]. split; [exact Htr|].
  intros Hun.
  assert (Heq : <["grayscale" := VBool true]> {["filename" := VStr "in/1.png"]}
                = ({["filename" := VStr "in/1.png"]} : dict)).
  { apply (Hun "in/1.png" "out/1.png" _ "png"). rewrite Htr.
    do 4 apply list_elem_of_further. apply list_elem_of_here. }
  apply (f_equal (λ m : dict, m !! "grayscale")) in Heq.
  vm_compute in Heq. discriminate Heq.
Qed.

(** *** A list file *)

Lemma main_list_file_first_column_witness :
  let E := Demo.demo_env Demo.Propagate [] [] Demo.lazy_workers in
  let a := Demo.demo_args "list.txt" "out" false in
  ∃ files,
    Cli.main E a Demo.start =
      Cli.convert_files E tt files a true
        (log (Cli.EvOpenList "list.txt")
           (log (Cli.EvLoadModel "noise_scale" 0)
              (log (Cli.EvWaifu2x "/opt/waifu2x/pretrained_models/swin_unet/art")
                   Demo.start)))
    ∧ Cli.lc_files (Cli.convert_files_loader E files) = files
    ∧ length files = 3%nat
    ∧ ∀ i row, Demo.demo_rows !! i = Some row → files !! i = head row.
Proof.
  intros E a.
  apply (main_list_file_first_column E a Demo.start tt tt Demo.demo_rows).
  - vm_compute. reflexivity.
  - vm_compute. reflexivity.
  - vm_compute. reflexivity.
  - apply list_elem_of_here.
  - vm_compute. reflexivity.
  - repeat (apply Forall_cons; split; [discriminate|]). apply Forall_nil_2.
Defined.

(** A blank line in the list file is a row without a first column:
    [row[0]] raises and no file is processed. *)
Example load_files_blank_row :
  Cli.load_rows [["in/1.png"]; []; ["in/2.png"]] Demo.start
  = (Raise IndexError, Demo.start).
Proof. vm_compute. reflexivity. Qed.

(** ** The bounded queue between decoding and inference *)

Section LoaderFacts.
Import Cli Loader.
Context {image : Type}.
Implicit Types (cfg : loader_config image) (s : loader_state image).

(** The queue holds at most [max_queue_size] items, and the items are
    neither lost nor reordered. *)
Definition queue_invariant cfg s : Prop :=
  Z.of_nat (length (queue s)) ≤ Z.max 0 (lc_max_queue_size cfg)
  ∧ delivered s ++ queue s ++ (lc_load_func cfg <$> pending s)
    = lc_load_func cfg <$> lc_files cfg.

Lemma init_invariant cfg : queue_invariant cfg (init cfg).
Proof. split; [simpl; lia|done]. Qed.

Lemma step_invariant cfg act s s' :
  queue_invariant cfg s → step cfg act s = Some s' → queue_invariant cfg s'.
Proof.
  intros [Hlen Hitems] Hstep. destruct act; simpl in Hstep.
  - unfold push in Hstep. destruct (pending s) as [|f rest] eqn:Hp; [done|].
    case_bool_decide as Hfree; [|done]. injection Hstep as <-.
    split; simpl.
    + rewrite length_app. simpl. lia.
    + rewrite <- Hitems. simpl. by rewrite <- !app_assoc.
  - unfold pop in Hstep. destruct (queue s) as [|x q] eqn:Hq; [done|].
    injection Hstep as <-. split; simpl.
    + simpl in Hlen. lia.
    + rewrite <- Hitems. simpl. by rewrite <- !app_assoc.
Qed.

Lemma run_invariant cfg acts : ∀ s,
  queue_invariant cfg s → queue_invariant cfg (run cfg acts s).
Proof.
  induction acts as [|act acts IH]; intros s Hs; [done|]. simpl. apply IH.
  destruct (step cfg act s) as [s'|] eqn:Hstep; [|done].
  by apply (step_invariant cfg act s).
Qed.

Lemma push_blocks_when_full cfg s :
  lc_max_queue_size cfg ≤ Z.of_nat (length (queue s)) → push cfg s = None.
Proof.
  intros Hfull. unfold push. destruct (pending s); [done|].
  by rewrite bool_decide_eq_false_2 by lia.
Qed.

Lemma push_moves_when_not_full cfg s f rest :
  pending s = f :: rest →
  Z.of_nat (length (queue s)) < lc_max_queue_size cfg →
  is_Some (push cfg s).
Proof.
  intros Hp Hfree. unfold push. rewrite Hp.
  by rewrite bool_decide_eq_true_2.
Qed.

End LoaderFacts.

(** C8.  [convert_files] configures the loader with the queue capacity
    128, and in every state the loader reaches, whatever the interleaving
    of producer and consumer, the queue holds at most 128 decoded images;
    a push on a full queue blocks, and the images are delivered in the
    order of the files. *)
Theorem convert_files_queue_bounded_by_128 {image tensor context : Type}
    (E : Cli.env image tensor context) (files : list string)
    (acts : list Loader.action) :
  let cfg := Cli.convert_files_loader E files in
  let s := Loader.run cfg acts (Loader.init cfg) in
  Cli.lc_max_queue_size cfg = 128
  ∧ (length (Loader.queue s) ≤ 128)%nat
  ∧ (length (Loader.queue s) = 128%nat → Loader.push cfg s = None)
  ∧ Loader.delivered s ++ Loader.queue s
      ++ (Cli.lc_load_func cfg <$> Loader.pending s)
    = Cli.lc_load_func cfg <$> files.
Proof.
  intros cfg s.
  destruct (run_invariant cfg acts (Loader.init cfg) (init_invariant cfg))
    as [Hlen Hitems].
  fold s in Hlen, Hitems. change (Cli.lc_max_queue_size cfg) with 128 in *.
  split; [done|]. split; [lia|]. split; [|exact Hitems].
  intros Hfull. apply push_blocks_when_full.
  change (Cli.lc_max_queue_size cfg) with 128. lia.
Qed.

(** Three files through a queue of capacity two: the third push waits
    until the consumer has taken an image. *)
Example queue_of_two :
  let cfg := Cli.mkLoaderConfig ["a"; "b"; "c"] 2
               (λ f, Ok (f, (∅ : dict))) in
  Loader.queue (Loader.run cfg [Loader.Push; Loader.Push; Loader.Push] (Loader.init cfg))
    = [Ok ("a", ∅); Ok ("b", ∅)]
  ∧ Loader.run cfg [Loader.Push; Loader.Push; Loader.Push; Loader.Pop; Loader.Push;
                    Loader.Pop; Loader.Pop; Loader.Pop] (Loader.init cfg)
    = Loader.mkLoader [] [] [Ok ("a", ∅); Ok ("b", ∅); Ok ("c", ∅)].
Proof. split; vm_compute; reflexivity. Qed.

(** ** Cropping to a multiple of four ([downscaling_test.py]) *)

Section ModcropFacts.
Import Downscaling.
Context {pixel : Type} (fill : pixel).
Implicit Types im : image pixel.

Lemma TF_pad_size im l t r b :
  size (TF_pad fill im (l, t, r, b)) = (l + width im + r, t + height im + b).
Proof. reflexivity. Qed.

Lemma TF_pad_getpixel im l t r b x y :
  0 ≤ x < l + width im + r → 0 ≤ y < t + height im + b →
  getpixel (TF_pad fill im (l, t, r, b)) x y =
    Some (default fill (getpixel im (x - l) (y - t))).
Proof.
  intros Hx Hy. unfold getpixel at 1. rewrite decide_True by lia. simpl.
  rewrite list_lookup_fmap, lookup_seqZ_lt by lia. simpl.
  rewrite list_lookup_fmap, lookup_seqZ_lt by lia. simpl.
  do 3 f_equal; lia.
Qed.

Lemma TF_pad_wf im l t r b :
  0 ≤ l + width im + r → 0 ≤ t + height im + b →
  wf_image (TF_pad fill im (l, t, r, b)).
Proof.
  intros Hw Hh. unfold wf_image, width, height. simpl.
  repeat split; try done.
  - by rewrite length_fmap, length_seqZ.
  - apply Forall_fmap, Forall_forall. intros y _. simpl.
    by rewrite length_fmap, length_seqZ.
Qed.

Lemma wf_getpixel im x y :
  wf_image im → 0 ≤ x < width im → 0 ≤ y < height im →
  is_Some (getpixel im x y).
Proof.
  intros (Hw & Hh & Hlen & Hrows) Hx Hy. unfold getpixel.
  rewrite decide_True by lia.
  destruct (lookup_lt_is_Some_2 (rows im) (Z.to_nat y)) as [row Hrow]; [lia|].
  rewrite Hrow. simpl.
  apply lookup_lt_is_Some_2.
  rewrite Forall_forall in Hrows.
  rewrite (Hrows row) by (by eapply list_elem_of_lookup_2). lia.
Qed.

Lemma modcrop_unfold im :
  modcrop fill im =
    if bool_decide (- (width im `mod` 4) ≠ 0) || bool_decide (- (height im `mod` 4) ≠ 0)
    then TF_pad fill im (0, 0, - (width im `mod` 4), - (height im `mod` 4))
    else im.
Proof. unfold modcrop, width, height. by destruct (size im). Qed.

Lemma modcrop_size im :
  size (modcrop fill im) = (4 * (width im / 4), 4 * (height im / 4)).
Proof.
  unfold modcrop, width, height. destruct (size im) as [w h] eqn:Hs. simpl.
  pose proof (Z.div_mod w 4 ltac:(lia)). pose proof (Z.div_mod h 4 ltac:(lia)).
  destruct (bool_decide (- (w `mod` 4) ≠ 0)) eqn:Hbw;
    destruct (bool_decide (- (h `mod` 4) ≠ 0)) eqn:Hbh; simpl;
    rewrite ?TF_pad_size; unfold width, height; rewrite ?Hs; simpl;
    try (f_equal; lia).
  apply bool_decide_eq_false in Hbw, Hbh. f_equal; lia.
Qed.

Lemma modcrop_aligned im :
  width im `mod` 4 = 0 → height im `mod` 4 = 0 → modcrop fill im = im.
Proof.
  unfold modcrop, width, height. destruct (size im) as [w h]. simpl.
  intros -> ->. reflexivity.
Qed.

Lemma modcrop_idempotent im :
  modcrop fill (modcrop fill im) = modcrop fill im.
Proof.
  apply modcrop_aligned; unfold width, height; rewrite modcrop_size; simpl.
  - rewrite Z.mul_comm. apply Z.mod_mul. lia.
  - rewrite Z.mul_comm. apply Z.mod_mul. lia.
Qed.

Lemma modcrop_getpixel im x y :
  wf_image im →
  0 ≤ x < 4 * (width im / 4) → 0 ≤ y < 4 * (height im / 4) →
  getpixel (modcrop fill im) x y = getpixel im x y.
Proof.
  intros Hwf Hx Hy.
  pose proof (Z.div_mod (width im) 4 ltac:(lia)) as Hdw.
  pose proof (Z.div_mod (height im) 4 ltac:(lia)) as Hdh.
  pose proof (Z.mod_pos_bound (width im) 4 ltac:(lia)).
  pose proof (Z.mod_pos_bound (height im) 4 ltac:(lia)).
  destruct (wf_getpixel im x y Hwf) as [p Hp]; [lia..|].
  rewrite modcrop_unfold.
  destruct (bool_decide (- (width im `mod` 4) ≠ 0)
            || bool_decide (- (height im `mod` 4) ≠ 0)); [|done].
  rewrite TF_pad_getpixel by lia.
  rewrite !Z.sub_0_r, Hp. done.
Qed.

Lemma modcrop_wf im : wf_image im → wf_image (modcrop fill im).
Proof.
  intros Hwf. pose proof Hwf as (Hw & Hh & _).
  pose proof (Z.mod_pos_bound (width im) 4 ltac:(lia)).
  pose proof (Z.mod_pos_bound (height im) 4 ltac:(lia)).
  pose proof (Z.mod_le (width im) 4 ltac:(lia) ltac:(lia)).
  pose proof (Z.mod_le (height im) 4 ltac:(lia) ltac:(lia)).
  rewrite modcrop_unfold.
  destruct (bool_decide (- (width im `mod` 4) ≠ 0)
            || bool_decide (- (height im `mod` 4) ≠ 0)); [|done].
  apply TF_pad_wf; lia.
Qed.

(** C10.  [modcrop] returns an image whose width and height are the
    largest multiples of four not exceeding those of its argument, keeping
    the pixels of the top-left region (the crop removes columns on the
    right and rows at the bottom); an image whose dimensions are already
    multiples of four is returned unchanged; and [modcrop] is idempotent. *)
Theorem modcrop_largest_multiple_of_4 (im : image pixel) :
  wf_image im →
  let w' := width (modcrop fill im) in
  let h' := height (modcrop fill im) in
  wf_image (modcrop fill im)
  ∧ (w' `mod` 4 = 0 ∧ w' ≤ width im ∧ ∀ m, m `mod` 4 = 0 → m ≤ width im → m ≤ w')
  ∧ (h' `mod` 4 = 0 ∧ h' ≤ height im ∧ ∀ m, m `mod` 4 = 0 → m ≤ height im → m ≤ h')
  ∧ (∀ x y, 0 ≤ x < w' → 0 ≤ y < h' →
       getpixel (modcrop fill im) x y = getpixel im x y)
  ∧ (width im `mod` 4 = 0 → height im `mod` 4 = 0 → modcrop fill im = im)
  ∧ modcrop fill (modcrop fill im) = modcrop fill im.
Proof.
  intros Hwf w' h'.
  assert (Hw' : w' = 4 * (width im / 4))
    by (unfold w', width; by rewrite modcrop_size).
  assert (Hh' : h' = 4 * (height im / 4))
    by (unfold h', height; by rewrite modcrop_size).
  assert (Hmult : ∀ n, 0 ≤ n →
            (4 * (n / 4)) `mod` 4 = 0 ∧ 4 * (n / 4) ≤ n
            ∧ ∀ m, m `mod` 4 = 0 → m ≤ n → m ≤ 4 * (n / 4)).
  { intros n Hn. split; [rewrite Z.mul_comm; apply Z.mod_mul; lia|].
    split; [apply Z.mul_div_le; lia|].
    intros m Hm Hle. apply Z.mod_divide in Hm as [k ->]; [|lia].
    assert (k ≤ n / 4) by (apply Z.div_le_lower_bound; lia). lia. }
  pose proof Hwf as (Hw & Hh & _).
  split; [by apply modcrop_wf|].
  split; [rewrite Hw'; by apply Hmult|].
  split; [rewrite Hh'; by apply Hmult|].
  split.
  { intros x y Hx Hy. apply modcrop_getpixel; [done|lia..]. }
  split; [apply modcrop_aligned | apply modcrop_idempotent].
Qed.

End ModcropFacts.

(** A 6 x 5 image is cropped to 4 x 4. *)
Definition example_image : Downscaling.image Z :=
  Downscaling.mkImage (6, 5)
    [ [ 0;  1;  2;  3;  4;  5];
      [10; 11; 12; 13; 14; 15];
      [20; 21; 22; 23; 24; 25];
      [30; 31; 32; 33; 34; 35];
      [40; 41; 42; 43; 44; 45] ].

Example modcrop_example :
  Downscaling.modcrop 0 example_image =
    Downscaling.mkImage (4, 4)
      [ [ 0;  1;  2;  3];
        [10; 11; 12; 13];
        [20; 21; 22; 23];
        [30; 31; 32; 33] ].
Proof. vm_compute. reflexivity. Qed.

Lemma example_image_wf : Downscaling.wf_image example_image.
Proof.
  unfold Downscaling.wf_image, Downscaling.width, Downscaling.height. simpl.
  split; [lia|]. split; [lia|]. split; [reflexivity|].
  repeat (apply Forall_cons; split; [reflexivity|]). apply Forall_nil_2.
Qed.

Lemma modcrop_largest_multiple_of_4_witness :
  Downscaling.wf_image (Downscaling.modcrop 0 example_image)
  ∧ Downscaling.modcrop 0 (Downscaling.modcrop 0 example_image)
    = Downscaling.modcrop 0 example_image.
Proof.
  destruct (modcrop_largest_multiple_of_4 0 example_image example_image_wf)
    as (Hwf & _ & _ & _ & _ & Hidem).
  split; [exact Hwf | exact Hidem].
Defined.

(** * Further properties *)

(** ** [register_kwargs] and [get_config] ([nunif/models/model.py]) *)

Section ModelMore.
Import ModelPy.

Lemma Model_eq (m1 m2 : Model) :
  kwargs m1 = kwargs m2 → updated_at m1 = updated_at m2 → m1 = m2.
Proof. destruct m1, m2. simpl. by intros -> ->. Qed.

(** X1.  Two calls of [register_kwargs] in a row are one call with the
    second mapping laid over the first; so a repeated call changes nothing,
    and neither does a call with the empty mapping. *)
Theorem register_kwargs_twice (self : Model) (kw1 kw2 : dict) :
  register_kwargs (register_kwargs self kw1) kw2 = register_kwargs self (kw2 ∪ kw1)
  ∧ register_kwargs (register_kwargs self kw1) kw1 = register_kwargs self kw1
  ∧ register_kwargs self ∅ = self.
Proof.
  assert (Hcomp : ∀ k1 k2 : dict,
            register_kwargs (register_kwargs self k1) k2
            = register_kwargs self (k2 ∪ k1)).
  { intros k1 k2. apply Model_eq.
    - rewrite !(proj1 (register_kwargs_union _ _)).
      apply map_eq. intros name. rewrite !lookup_union.
      destruct (decide (name = "self")) as [->|Hne].
      + rewrite !lookup_delete_eq. by destruct (kwargs self !! "self").
      + rewrite !lookup_delete_ne, lookup_union by done.
        by destruct (k2 !! name), (k1 !! name), (kwargs self !! name).
    - by rewrite !(proj2 (register_kwargs_union _ _)). }
  split; [apply Hcomp|]. split.
  - rewrite Hcomp. f_equal. apply map_eq. intros name. rewrite lookup_union.
    by destruct (kw1 !! name).
  - apply Model_eq.
    + rewrite (proj1 (register_kwargs_union _ _)), delete_empty.
      by rewrite (left_id_L ∅ (∪)).
    + by rewrite (proj2 (register_kwargs_union _ _)).
Qed.

(** X2.  [register_kwargs] only adds and overwrites: no captured key
    disappears, an entry whose key the new mapping does not give keeps
    its value, an entry [self] of the new mapping never gets in, and
    [updated_at] is left alone. *)
Theorem register_kwargs_only_adds (self : Model) (kw : dict) :
  dom (kwargs self) ⊆ dom (kwargs (register_kwargs self kw))
  ∧ (∀ name, kw !! name = None →
       kwargs (register_kwargs self kw) !! name = kwargs self !! name)
  ∧ kwargs (register_kwargs self kw) !! "self" = kwargs self !! "self"
  ∧ (∀ name v, name ≠ "self" → kw !! name = Some v →
       kwargs (register_kwargs self kw) !! name = Some v)
  ∧ updated_at (register_kwargs self kw) = updated_at self.
Proof.
  split; [|split; [|split; [|split]]].
  - intros name. rewrite !elem_of_dom, register_kwargs_lookup.
    intros [v Hv]. case_decide; [by rewrite Hv|].
    destruct (kw !! name); [done|by rewrite Hv].
  - intros name Hnone. rewrite register_kwargs_lookup, Hnone. by case_decide.
  - rewrite register_kwargs_lookup. by rewrite decide_True.
  - intros name v Hne Hv. rewrite register_kwargs_lookup, Hv.
    by rewrite decide_False.
  - apply register_kwargs_union.
Qed.

(** The configuration of an [I2IBaseModel] consists of exactly the scale
    and the offset given to the constructor, whatever keyword arguments
    were captured. *)
Lemma get_config_is_the_geometry (kw : dict) (scale offset : Z) (name : string) :
  get_config (I2IBaseModel_init kw scale offset) !! name =
    if decide (name = "i2i_scale") then Some (VInt scale)
    else if decide (name = "i2i_offset") then Some (VInt offset)
    else None.
Proof.
  unfold get_config, I2IBaseModel_init, Model_get_config. simpl.
  repeat case_decide; simplify_map_eq; done.
Qed.

End ModelMore.

(** ** More on the conversion pipeline ([waifu2x/cli.py]) *)

Section PipelineMore.
Import Cli Worlds.
Context {image tensor context : Type}.
Implicit Types (E : env image tensor context) (s : state image).

Lemma bind_call_Ok {A B} ev (x : A) (k : A → M image B) s :
  bind (call ev (Ok x)) k s = k x (log ev s).
Proof. done. Qed.

Lemma bind_call_Raise {A B} ev e (k : A → M image B) s :
  bind (call (A:=A) ev (Raise e)) k s = (Raise (External e), log ev s).
Proof. done. Qed.

(** The part of a state that does not depend on the timing of the
    workers: the calls made and the tasks submitted. *)
Definition same_view (s1 s2 : state image) : Prop :=
  trace s1 = trace s2 ∧ tasks s1 = tasks s2.

Lemma same_view_log ev s1 s2 : same_view s1 s2 → same_view (log ev s1) (log ev s2).
Proof. intros [Htr Hts]. split; [cbn; by rewrite Htr|done]. Qed.

Lemma submit_view E t s :
  (submit E t s).1 = Ok tt
  ∧ trace (submit E t s).2 = trace s
  ∧ tasks (submit E t s).2 = tasks s ++ [t].
Proof.
  unfold submit, tasks. cbn. rewrite workers_run_tasks, fmap_app. done.
Qed.

Lemma submit_same_view E sch t s1 s2 :
  same_view s1 s2 →
  (submit E t s1).1 = (submit (with_schedule E sch) t s2).1
  ∧ same_view (submit E t s1).2 (submit (with_schedule E sch) t s2).2.
Proof.
  intros [Htr Hts].
  destruct (submit_view E t s1) as (Hr1 & Htr1 & Hts1).
  destruct (submit_view (with_schedule E sch) t s2) as (Hr2 & Htr2 & Hts2).
  unfold same_view. by rewrite Hr1, Hr2, Htr1, Htr2, Hts1, Hts2, Htr, Hts.
Qed.

Lemma body_same_view E sch ctx a amp item s1 s2 :
  same_view s1 s2 →
  (convert_files_body E ctx a amp item s1).1
  = (convert_files_body (with_schedule E sch) ctx a amp item s2).1
  ∧ same_view (convert_files_body E ctx a amp item s1).2
              (convert_files_body (with_schedule E sch) ctx a amp item s2).2.
Proof.
  intros Hv. destruct item as [im meta]. unfold convert_files_body.
  change (IL (with_schedule E sch)) with (IL E).
  change (ctx_convert (with_schedule E sch)) with (ctx_convert E).
  change (set_image_ext (with_schedule E sch)) with (set_image_ext E).
  destruct (to_tensor (IL E) im true) as [[rgb alpha]|e];
    [rewrite !bind_call_Ok | rewrite !bind_call_Raise;
                             split; [done|by apply same_view_log] ].
  destruct (ctx_convert E ctx rgb alpha _ _ _ _ _ amp) as [[rgb' alpha']|e];
    [rewrite !bind_call_Ok | rewrite !bind_call_Raise;
                             split; [done|by do 2 apply same_view_log] ].
  unfold getitem.
  destruct (meta !! "filename") as [v|];
    [rewrite !bind_ret | rewrite !bind_raise;
                         split; [done|by do 2 apply same_view_log] ].
  destruct v as [ | | |p| ]; cbn [as_path];
    rewrite ?bind_raise; try (split; [done|by do 2 apply same_view_log]).
  rewrite !bind_ret.
  destruct (to_image (IL E) rgb' alpha' _) as [img|e];
    [rewrite !bind_call_Ok | rewrite !bind_call_Raise;
                             split; [done|by do 3 apply same_view_log] ].
  apply submit_same_view. by do 3 apply same_view_log.
Qed.

Lemma for_iter_same_view E sch ctx a amp (it : iterator (image * dict)) : ∀ s1 s2,
  same_view s1 s2 →
  (for_iter it (convert_files_body E ctx a amp) s1).1
  = (for_iter it (convert_files_body (with_schedule E sch) ctx a amp) s2).1
  ∧ same_view (for_iter it (convert_files_body E ctx a amp) s1).2
              (for_iter it (convert_files_body (with_schedule E sch) ctx a amp) s2).2.
Proof.
  induction it as [|item rest IH|e]; intros s1 s2 Hv; cbn [for_iter].
  - done.
  - destruct (body_same_view E sch ctx a amp item s1 s2 Hv) as [Hr Hv'].
    unfold bind.
    destruct (convert_files_body E ctx a amp item s1) as [r1 s1'].
    destruct (convert_files_body (with_schedule E sch) ctx a amp item s2) as [r2 s2'].
    cbn [fst snd] in Hr, Hv'. subst r2. destruct r1 as [[]|e]; [by apply IH|done].
  - done.
Qed.

Lemma convert_files_view E ctx files a amp tr :
  let run := convert_files E ctx files a amp (mkState tr []) in
  let s1 := mkState (tr ++ [EvMakedirs (output a)]) [] in
  let loop := convert_loop E ctx files a amp s1 in
  match os_makedirs E (output a) with
  | Raise e => run = (Raise (External e), s1)
  | Ok _ =>
      trace run.2 = trace loop.2
      ∧ tasks run.2 = tasks loop.2
      ∧ Forall (finished E) (futures run.2)
      ∧ run.1 = match loop.1 with
                | Raise e => Raise e
                | Ok _ => first_failure E (tasks loop.2)
                end
  end.
Proof.
  intros run s1 loop. subst run. unfold convert_files.
  destruct (os_makedirs E (output a)) as [[]|e];
    [rewrite bind_call_Ok | by rewrite bind_call_Raise].
  unfold with_pool, log. cbn [trace futures]. fold s1.
  destruct (for_iter_body_spec E ctx a amp
              (ImageLoader E (convert_files_loader E files)) s1) as (Hc & _);
    [constructor|].
  unfold bind. fold (convert_loop E ctx files a amp) in *. fold loop in Hc |- *.
  destruct loop as [[[]|e] s2]; cbn [fst snd] in *.
  - destruct (wait_results_spec E s2 Hc) as (fs' & Hw & Ht & Hc').
    rewrite Hw. cbn [fst snd trace futures]. rewrite tasks_mk, fmap_finish_tasks.
    split; [done|]. split; [done|]. split; [by apply fmap_finish_finished|done].
  - cbn [trace futures]. rewrite tasks_mk, fmap_finish_tasks.
    split; [done|]. split; [done|]. split; [by apply fmap_finish_finished|done].
Qed.

Lemma finished_futures E (fs : list (future image)) :
  Forall (finished E) fs →
  fs = (λ t, mkFuture t (Some (run_task E t))) <$> (fut_task <$> fs).
Proof.
  induction 1 as [|[t o] fs Hf _ IH]; [done|].
  unfold finished in Hf. cbn in Hf. subst o. cbn. by rewrite <- IH.
Qed.

Lemma first_failure_with_schedule E sch (ts : list (save_task image)) :
  first_failure (with_schedule E sch) ts = first_failure E ts.
Proof. induction ts as [|t ts IH]; [done|]. cbn. by rewrite IH. Qed.

(** X3.  The timing of the worker threads does not show: run in two
    worlds that differ only in when the workers get to run the submitted
    tasks, [convert_files] ends with the same outcome, the same calls
    made by the main thread and the same results in all its handles. *)
Theorem convert_files_independent_of_worker_timing
    (E : env image tensor context) (schedule : nat → nat → bool)
    (ctx : context) (files : list string) (a : args) (amp : bool)
    (tr : list (event image)) :
  convert_files (with_schedule E schedule) ctx files a amp (mkState tr [])
  = convert_files E ctx files a amp (mkState tr []).
Proof.
  pose proof (convert_files_view E ctx files a amp tr) as H1.
  pose proof (convert_files_view (with_schedule E schedule) ctx files a amp tr) as H2.
  cbn zeta in H1, H2.
  change (os_makedirs (with_schedule E schedule)) with (os_makedirs E) in H2.
  destruct (os_makedirs E (output a)) as [[]|e]; [|by rewrite H1, H2].
  destruct H1 as (Htr1 & Hts1 & Hfin1 & Hr1).
  destruct H2 as (Htr2 & Hts2 & Hfin2 & Hr2).
  destruct (for_iter_same_view E schedule ctx a amp
              (ImageLoader E (convert_files_loader E files))
              (mkState (tr ++ [EvMakedirs (output a)]) [])
              (mkState (tr ++ [EvMakedirs (output a)]) []))
    as (Hlr & Hltr & Hlts); [done|].
  fold (convert_loop E ctx files a amp) in Hlr, Hltr, Hlts.
  change (for_iter (ImageLoader E (convert_files_loader E files))
            (convert_files_body (with_schedule E schedule) ctx a amp))
    with (convert_loop (with_schedule E schedule) ctx files a amp)
    in Hlr, Hltr, Hlts.
  rewrite <- Hlr, <- Hlts, first_failure_with_schedule, <- Hr1 in Hr2.
  rewrite <- Hltr, <- Htr1 in Htr2. rewrite <- Hlts, <- Hts1 in Hts2.
  apply finished_futures in Hfin1, Hfin2.
  change (run_task (with_schedule E schedule)) with (run_task E) in Hfin2.
  unfold tasks in Hts2. rewrite Hts2 in Hfin2. rewrite <- Hfin1 in Hfin2.
  destruct (convert_files (with_schedule E schedule) ctx files a amp (mkState tr []))
    as [r2 [tr2 fs2]].
  destruct (convert_files E ctx files a amp (mkState tr [])) as [r1 [tr1 fs1]].
  cbn in *. by subst.
Qed.

(** X4.  When the output directory cannot be created, [convert_files]
    raises that error at once: the loader is not iterated, nothing is
    converted, and no task is submitted. *)
Theorem convert_files_stops_when_makedirs_fails
    (E : env image tensor context) (ctx : context) (files : list string)
    (a : args) (amp : bool) (tr : list (event image)) (e : xerr) :
  os_makedirs E (output a) = Raise e →
  convert_files E ctx files a amp (mkState tr [])
  = (Raise (External e), mkState (tr ++ [EvMakedirs (output a)]) []).
Proof.
  intros Hmk. pose proof (convert_files_view E ctx files a amp tr) as H.
  cbn zeta in H. by rewrite Hmk in H.
Qed.

(** X5.  An item whose metadata has no [filename] makes the loop of
    [convert_files] raise [KeyError] after the image has been converted:
    the result of the conversion is dropped, no task is submitted for it,
    and the rest of the loader is not touched. *)
Theorem loop_raises_KeyError_without_filename
    (E : env image tensor context) (ctx : context) (a : args) (amp : bool)
    (im : image) (meta : dict) (rest : iterator (image * dict)) (s : state image)
    (rgb rgb' : tensor) (alpha alpha' : option tensor) :
  to_tensor (IL E) im true = Ok (rgb, alpha) →
  ctx_convert E ctx rgb alpha (method a) (noise_level a) (tile_size a)
    (batch_size a) (tta a) amp = Ok (rgb', alpha') →
  meta !! "filename" = None →
  for_iter (Yield (im, meta) rest) (convert_files_body E ctx a amp) s
  = (Raise (KeyError "filename"), log EvConvert (log EvToTensor s)).
Proof.
  intros H1 H2 Hm. cbn [for_iter]. unfold bind at 1. unfold convert_files_body.
  rewrite H1, bind_call_Ok, H2, bind_call_Ok. unfold getitem. rewrite Hm.
  by rewrite bind_raise.
Qed.

(** The bit depth handed to [to_image]: the [--depth] argument when there
    is one, else the depth of the metadata unless it is missing or
    [None], else 8. *)
Definition effective_depth (a : args) (meta : dict) : pyval :=
  match depth a with
  | Some d => VInt d
  | None =>
      match meta !! "depth" with
      | Some VNone | None => VInt 8
      | Some v => v
      end
  end.

Lemma depth_expression (a : args) (meta : dict) :
  match match depth a with
        | Some d => <["depth" := VInt d]> meta
        | None => meta
        end !! "depth" with
  | Some v => if decide (v = VNone) then VInt 8 else v
  | None => VInt 8
  end = effective_depth a meta.
Proof.
  unfold effective_depth. destruct (depth a) as [d|].
  - by rewrite lookup_insert_eq.
  - destruct (meta !! "depth") as [[]|]; done.
Qed.

(** What one iteration of the loop submits. *)
Lemma convert_files_body_task E ctx a amp im (meta : dict) s rgb alpha rgb' alpha' p :
  to_tensor (IL E) im true = Ok (rgb, alpha) →
  ctx_convert E ctx rgb alpha (method a) (noise_level a) (tile_size a)
    (batch_size a) (tta a) amp = Ok (rgb', alpha') →
  meta !! "filename" = Some (VStr p) →
  match to_image (IL E) rgb' alpha' (effective_depth a meta) with
  | Raise e =>
      (convert_files_body E ctx a amp (im, meta) s).1 = Raise (External e)
      ∧ tasks (convert_files_body E ctx a amp (im, meta) s).2 = tasks s
  | Ok img =>
      (convert_files_body E ctx a amp (im, meta) s).1 = Ok tt
      ∧ ∃ meta',
          carried a meta meta'
          ∧ tasks (convert_files_body E ctx a amp (im, meta) s).2
            = tasks s ++ [mkTask img
                            (path_join (output a)
                               (set_image_ext E (basename p) (format a)))
                            meta' (format a)]
  end.
Proof.
  intros H1 H2 Hm. unfold convert_files_body.
  rewrite H1, bind_call_Ok, H2, bind_call_Ok. unfold getitem. rewrite Hm.
  rewrite bind_ret. cbn [as_path]. rewrite bind_ret, depth_expression.
  destruct (to_image (IL E) rgb' alpha' (effective_depth a meta)) as [img|e];
    [rewrite bind_call_Ok | by rewrite bind_call_Raise].
  match goal with |- context [submit E ?t ?s0] =>
    destruct (submit_view E t s0) as (Hr & _ & Ht) end.
  split; [done|]. eexists. split; [apply carried_updates|exact Ht].
Qed.

(** X6.  The bit depth of the output of [convert_file] is the [--depth]
    argument when one is given, whatever the metadata says; else the depth
    recorded in the metadata of the input; and 8 when that is missing or
    [None].  With this depth the image is built, and then saved. *)
Theorem convert_file_output_depth
    (E : env image tensor context) (ctx : context) (a : args) (amp : bool)
    (s : state image) (im : image) (meta : dict)
    (rgb rgb' : tensor) (alpha alpha' : option tensor) :
  output_format a ∈ image_extensions →
  load_image (IL E) (input a) "rgb" true = Ok (im, meta) →
  to_tensor (IL E) im true = Ok (rgb, alpha) →
  ctx_convert E ctx rgb alpha (method a) (noise_level a) (tile_size a)
    (batch_size a) (tta a) amp = Ok (rgb', alpha') →
  ∃ meta',
    carried a meta meta'
    ∧ (convert_file E ctx a amp s).1 =
        match to_image (IL E) rgb' alpha'
                (match depth a with
                 | Some d => VInt d
                 | None => match meta !! "depth" with
                           | Some VNone | None => VInt 8
                           | Some v => v
                           end
                 end) with
        | Raise e => Raise (External e)
        | Ok img => lift (save_image (IL E) img (output a) meta' (output_format a))
        end.
Proof.
  intros Hext H0 H1 H2. unfold convert_file, output_format in *.
  destruct (splitext (output a)) as [root ext]. cbn [snd] in Hext.
  rewrite decide_False by (intros Hn; by apply Hn).
  rewrite H0, bind_call_Ok, H1, bind_call_Ok, H2, bind_call_Ok, depth_expression.
  eexists. split; [apply carried_updates|].
  fold (effective_depth a meta).
  destruct (to_image (IL E) rgb' alpha' (effective_depth a meta)) as [img|e];
    [rewrite bind_call_Ok | by rewrite bind_call_Raise].
  done.
Qed.

(** The task of an item: saved in the format of [--format], under the
    name of the input file with its extension set by [set_image_ext],
    directly below the output directory. *)
Definition named_after E (a : args) (item : image * dict) (t : save_task image) : Prop :=
  task_format t = format a
  ∧ ∃ p, item.2 !! "filename" = Some (VStr p)
         ∧ task_filename t
           = path_join (output a) (set_image_ext E (basename p) (format a)).

Lemma convert_files_body_named E ctx a amp item s :
  ((convert_files_body E ctx a amp item s).1 = Ok tt
   ∧ ∃ t, tasks (convert_files_body E ctx a amp item s).2 = tasks s ++ [t]
          ∧ named_after E a item t)
  ∨ ((∃ e, (convert_files_body E ctx a amp item s).1 = Raise e)
     ∧ tasks (convert_files_body E ctx a amp item s).2 = tasks s).
Proof.
  destruct item as [im meta]. unfold convert_files_body.
  destruct (to_tensor (IL E) im true) as [[rgb alpha]|e];
    [rewrite bind_call_Ok | rewrite bind_call_Raise; right; eauto].
  destruct (ctx_convert E ctx rgb alpha _ _ _ _ _ amp) as [[rgb' alpha']|e];
    [rewrite bind_call_Ok | rewrite bind_call_Raise; right; eauto].
  unfold getitem.
  destruct (meta !! "filename") as [v|] eqn:Hm;
    [rewrite bind_ret | rewrite bind_raise; right; eauto].
  destruct v as [ | | |p| ]; cbn [as_path];
    rewrite ?bind_raise; try (right; by eauto).
  rewrite bind_ret.
  destruct (to_image (IL E) rgb' alpha' _) as [img|e];
    [rewrite bind_call_Ok | rewrite bind_call_Raise; right; eauto].
  match goal with |- context [submit E ?t ?s0] =>
    destruct (submit_view E t s0) as (Hr & _ & Ht) end.
  left. split; [done|]. eexists. split; [exact Ht|].
  split; [done|]. exists p. by split.
Qed.

Lemma for_iter_named E ctx a amp (it : iterator (image * dict)) : ∀ s,
  ∃ new,
    tasks (for_iter it (convert_files_body E ctx a amp) s).2 = tasks s ++ new
    ∧ Forall2 (named_after E a) (take (length new) (iter_items it)) new.
Proof.
  induction it as [|item rest IH|e]; intros s; cbn [for_iter iter_items].
  - exists []. by rewrite app_nil_r.
  - pose proof (convert_files_body_named E ctx a amp item s) as Hbody.
    unfold bind. destruct (convert_files_body E ctx a amp item s) as [r1 s1].
    cbn [fst snd] in Hbody.
    destruct Hbody as [(-> & t & Ht & Hn)|([e ->] & Ht)].
    + destruct (IH s1) as (new & Hnew & Hall). exists (t :: new).
      rewrite Hnew, Ht, <- app_assoc. split; [done|]. by constructor.
    + exists []. rewrite app_nil_r. split; [done|constructor].
  - exists []. rewrite app_nil_r. split; [done|constructor].
Qed.

(** X7.  In batch mode every output is written in the format of
    [--format] directly below the output directory, under the base name
    of its input file with the extension set by [set_image_ext]: the
    directory of the input file does not matter (two inputs with the same
    base name get the same output path), nor does the extension of
    [--output]. *)
Theorem convert_files_names_outputs_after_inputs
    (E : env image tensor context) (ctx : context) (files : list string)
    (a : args) (amp : bool) (tr : list (event image)) :
  let run := convert_files E ctx files a amp (mkState tr []) in
  let items := iter_items (ImageLoader E (convert_files_loader E files)) in
  Forall2 (λ item t,
             task_format t = format a
             ∧ ∃ p, item.2 !! "filename" = Some (VStr p)
                    ∧ task_filename t
                      = path_join (output a)
                          (set_image_ext E (basename p) (format a)))
          (take (length (tasks run.2)) items) (tasks run.2).
Proof.
  intros run items.
  pose proof (convert_files_view E ctx files a amp tr) as Hview.
  cbn zeta in Hview. fold run in Hview.
  destruct (os_makedirs E (output a)) as [[]|e].
  - destruct Hview as (_ & Hts & _). rewrite Hts.
    destruct (for_iter_named E ctx a amp
                (ImageLoader E (convert_files_loader E files))
                (mkState (tr ++ [EvMakedirs (output a)]) [])) as (new & Hnew & Hall).
    unfold convert_loop. rewrite Hnew. exact Hall.
  - rewrite Hview. constructor.
Qed.

(** X8.  In single-file mode the [--format] option has no effect: the
    format is the extension of the output path. *)
Theorem convert_file_ignores_format_option
    (E : env image tensor context) (ctx : context) (a : args) (fmt : string)
    (amp : bool) (s : state image) :
  convert_file E ctx (with_format a fmt) amp s = convert_file E ctx a amp s
  ∧ (output_format a ∈ image_extensions →
     ∀ img fn m f, EvSaveImage img fn m f ∈ trace (convert_file E ctx a amp s).2 →
                   EvSaveImage img fn m f ∉ trace s →
                   f = output_format a ∧ fn = output a).
Proof.
  split; [by destruct a|].
  intros Hext img fn m f Hin Hnew.
  destruct (convert_file_good_extension E ctx a amp s Hext) as (new & Htr & _ & Hcases).
  rewrite Htr in Hin. apply elem_of_app in Hin as [Hin|Hin]; [done|].
  apply elem_of_cons in Hin as [Hin|Hin]; [discriminate Hin|].
  destruct (load_image (IL E) (input a) "rgb" true) as [[im meta]|e].
  - destruct Hcases as [(e & k & _ & ->)|(img' & meta' & _ & -> & _)].
    + exfalso. destruct k as [|[|[|k]]]; cbn in Hin; rewrite ?take_nil in Hin;
        repeat (apply elem_of_cons in Hin as [Hin|Hin]; [discriminate Hin|]);
        by apply elem_of_nil in Hin.
    + repeat (apply elem_of_cons in Hin as [Hin|Hin];
              [first [discriminate Hin | by injection Hin as -> -> -> ->]|]).
      by apply elem_of_nil in Hin.
  - destruct Hcases as [_ ->]. by apply elem_of_nil in Hin.
Qed.

(** *** [main] *)

(** X9.  When the converter cannot be created, or its model cannot be
    loaded, [main] raises that error before anything else happens: no list
    file is opened, no directory created, no image loaded or written. *)
Theorem main_stops_when_model_is_missing
    (E : env image tensor context) (a : args) (s : state image) (e : xerr) :
  match Waifu2x E (select_model_dir E a) (gpu a) with
  | Ok ctx0 => ctx_load_model E ctx0 (method a) (noise_level a)
  | Raise e0 => Raise e0
  end = Raise e →
  (main E a s).1 = Raise (External e)
  ∧ futures (main E a s).2 = futures s
  ∧ ∃ k : nat,
      trace (main E a s).2
      = trace s ++ take k [EvWaifu2x (select_model_dir E a);
                           EvLoadModel (method a) (noise_level a)].
Proof.
  intros He. unfold main.
  destruct (Waifu2x E (select_model_dir E a) (gpu a)) as [ctx0|e0].
  - rewrite bind_call_Ok, He, bind_call_Raise. cbn.
    split; [done|]. split; [done|]. exists 2%nat. by rewrite <- app_assoc.
  - injection He as ->. rewrite bind_call_Raise. cbn.
    split; [done|]. split; [done|]. by exists 1%nat.
Qed.

(** X10.  How [main] chooses, once the model is loaded: a directory is
    always converted file by file, also when its name ends in [.txt] or
    [.csv]; and a path that is no directory and whose extension is not
    exactly [.txt] or [.csv] (in lower case) is converted as a single
    image. *)
Theorem main_directory_and_single_file
    (E : env image tensor context) (a : args) (s : state image) (ctx0 ctx : context) :
  Waifu2x E (select_model_dir E a) (gpu a) = Ok ctx0 →
  ctx_load_model E ctx0 (method a) (noise_level a) = Ok ctx →
  let s' := log (EvLoadModel (method a) (noise_level a))
              (log (EvWaifu2x (select_model_dir E a)) s) in
  (path_isdir E (input a) = true →
   main E a s
   = convert_files E ctx (ImageLoader_listdir E (input a)) a (negb (disable_amp a)) s')
  ∧ (path_isdir E (input a) = false →
     (splitext (input a)).2 ∉ [".txt"; ".csv"] →
     main E a s = convert_file E ctx a (negb (disable_amp a)) s').
Proof.
  intros Hw Hl s'. unfold main. rewrite Hw, bind_call_Ok, Hl, bind_call_Ok.
  fold s'. split.
  - by intros ->.
  - intros -> Hext. by rewrite decide_False.
Qed.

(** X11.  A list file with a row that has no first column (a blank line)
    makes [main] raise [IndexError] when it reads the list: the paths of
    the rows before it are dropped, no output directory is created and no
    image is converted. *)
Theorem main_raises_IndexError_on_blank_row
    (E : env image tensor context) (a : args) (s : state image) (ctx0 ctx : context)
    (rows rows' : list (list string)) :
  Waifu2x E (select_model_dir E a) (gpu a) = Ok ctx0 →
  ctx_load_model E ctx0 (method a) (noise_level a) = Ok ctx →
  path_isdir E (input a) = false →
  (splitext (input a)).2 ∈ [".txt"; ".csv"] →
  csv_rows E (input a) = Ok (rows ++ [] :: rows') →
  Forall (λ row, row ≠ []) rows →
  main E a s
  = (Raise IndexError,
     log (EvOpenList (input a))
       (log (EvLoadModel (method a) (noise_level a))
          (log (EvWaifu2x (select_model_dir E a)) s))).
Proof.
  intros Hw Hl Hdir Hext Hrows Hne. unfold main.
  rewrite Hw, bind_call_Ok, Hl, bind_call_Ok, Hdir.
  rewrite decide_True by done. unfold bind at 1. unfold load_files.
  rewrite Hrows, bind_call_Ok. by rewrite load_rows_empty_row.
Qed.

End PipelineMore.

(** X12.  The pool of [convert_files] has at least one worker, also on a
    machine with a single processor, and never more than half the
    processors otherwise. *)
Theorem max_workers_at_least_one (cpu_count : Z) :
  0 ≤ cpu_count →
  1 ≤ Cli.max_workers cpu_count
  ∧ (cpu_count ≤ 1 → Cli.max_workers cpu_count = 1)
  ∧ (2 ≤ cpu_count →
     Cli.max_workers cpu_count = cpu_count `div` 2
     ∧ 2 * Cli.max_workers cpu_count ≤ cpu_count).
Proof.
  intros Hn. unfold Cli.max_workers.
  pose proof (Z.div_mod cpu_count 2 ltac:(lia)) as Hdm.
  pose proof (Z.mod_pos_bound cpu_count 2 ltac:(lia)) as Hmod.
  case_bool_decide as Hz; repeat split; try lia.
Qed.

Lemma max_workers_at_least_one_witness :
  1 ≤ Cli.max_workers 1 ∧ Cli.max_workers 1 = 1 ∧ Cli.max_workers 8 = 4.
Proof.
  destruct (max_workers_at_least_one 1 ltac:(lia)) as (H1 & H2 & _).
  split; [exact H1|]. split; [apply H2; lia|reflexivity].
Defined.

(** X13.  After the start-up code has replaced the two aliases, the method
    is never [scale2x] or [noise_scale2x]; each accepted method is mapped
    to one of the five methods proper, and those are left as they are. *)
Theorem alias_method_removes_the_aliases (method : string) :
  CliMain.alias_method method ≠ "scale2x"
  ∧ CliMain.alias_method method ≠ "noise_scale2x"
  ∧ CliMain.alias_method (CliMain.alias_method method) = CliMain.alias_method method
  ∧ (method ∈ CliMain.method_choices →
     CliMain.alias_method method
       ∈ ["scale4x"; "noise_scale4x"; "scale"; "noise"; "noise_scale"]).
Proof.
  unfold CliMain.alias_method, CliMain.method_choices.
  repeat split.
  - repeat case_decide; congruence.
  - repeat case_decide; congruence.
  - repeat case_decide; congruence.
  - intros Hin. rewrite !elem_of_cons in Hin.
    destruct Hin as [->|[->|[->|[->|[->|[->|[->|Hin]]]]]]];
      [..|by apply elem_of_nil in Hin];
      repeat case_decide; try discriminate; rewrite !elem_of_cons; tauto.
Qed.

(** *** The further properties in the demo world *)

Definition quiet_world : Cli.env string string unit :=
  Demo.demo_env Demo.Propagate [] [] Demo.lazy_workers.

Lemma convert_files_stops_when_makedirs_fails_witness :
  Cli.convert_files (Worlds.with_readonly_fs quiet_world) tt Demo.five_files
    (Demo.demo_args "in" "out" false) true Demo.start
  = (Raise (External "read-only file system"),
     Cli.mkState [Cli.EvMakedirs "out"] []).
Proof.
  apply (convert_files_stops_when_makedirs_fails
           (Worlds.with_readonly_fs quiet_world) tt Demo.five_files
           (Demo.demo_args "in" "out" false) true []).
  reflexivity.
Defined.

Lemma loop_raises_KeyError_without_filename_witness :
  Cli.for_iter
    (Cli.Yield ("in/1.png", (∅ : dict))
       (Cli.Yield ("in/2.png", {["filename" := VStr "in/2.png"]}) Cli.StopIteration))
    (Cli.convert_files_body quiet_world tt (Demo.demo_args "in" "out" false) true)
    Demo.start
  = (Raise (KeyError "filename"), Cli.mkState [Cli.EvToTensor; Cli.EvConvert] []).
Proof.
  apply (loop_raises_KeyError_without_filename quiet_world tt
           (Demo.demo_args "in" "out" false) true "in/1.png" ∅ _ Demo.start
           "in/1.png" "in/1.png" None None).
  - reflexivity.
  - reflexivity.
  - vm_compute. reflexivity.
Defined.

(** [--depth 16] on a file whose metadata has no depth. *)
Definition deep_args : Cli.args :=
  Cli.mkArgs None 0 "noise_scale" [0] 4 256 "out/1.png" "in/1.png" false false
             (Some 16) "png" None false.

Lemma convert_file_output_depth_witness :
  ∃ meta',
    carried deep_args {["filename" := VStr "in/1.png"]} meta'
    ∧ (Cli.convert_file quiet_world tt deep_args true Demo.start).1 =
        match Cli.to_image (Cli.IL quiet_world) "in/1.png" None (VInt 16) with
        | Raise e => Raise (External e)
        | Ok img => Cli.lift (Cli.save_image (Cli.IL quiet_world) img "out/1.png" meta'
                                (output_format deep_args))
        end.
Proof.
  apply (convert_file_output_depth quiet_world tt deep_args true Demo.start
           "in/1.png" {["filename" := VStr "in/1.png"]} "in/1.png" "in/1.png" None None).
  - apply list_elem_of_here.
  - vm_compute. reflexivity.
  - reflexivity.
  - reflexivity.
Defined.

(** Two inputs with the same base name are saved under one output path. *)
Example same_base_name_same_output :
  let E := quiet_world in
  let run := Cli.convert_files E tt ["a/x.png"; "b/x.png"]
               (Demo.demo_args "in" "out" false) true Demo.start in
  Cli.task_filename <$> tasks run.2 = ["out/x.png"; "out/x.png"]
  ∧ Cli.task_image <$> tasks run.2 = ["a/x.png"; "b/x.png"]
  ∧ run.1 = Ok tt.
Proof. repeat split; vm_compute; reflexivity. Qed.

Lemma main_stops_when_model_is_missing_witness :
  let E := Worlds.without_models quiet_world in
  let a := Demo.demo_args "in" "out" false in
  (Cli.main E a Demo.start).1 = Raise (External "model not found")
  ∧ Cli.futures (Cli.main E a Demo.start).2 = []
  ∧ ∃ k : nat,
      Cli.trace (Cli.main E a Demo.start).2
      = [] ++ take k [Cli.EvWaifu2x (Cli.select_model_dir E a);
                      Cli.EvLoadModel "noise_scale" 0].
Proof.
  intros E a. apply (main_stops_when_model_is_missing E a Demo.start).
  reflexivity.
Defined.

Lemma main_directory_and_single_file_witness :
  let E := quiet_world in
  let s' := log (Cli.EvLoadModel "noise_scale" 0)
              (log (Cli.EvWaifu2x "/opt/waifu2x/pretrained_models/swin_unet/art")
                   Demo.start) in
  Cli.main E (Demo.demo_args "in" "out" false) Demo.start
  = Cli.convert_files E tt ["in/1.png"; "in/2.png"]
      (Demo.demo_args "in" "out" false) true s'
  ∧ Cli.main E (Demo.demo_args "in/list.TXT" "out.png" false) Demo.start
    = Cli.convert_file E tt (Demo.demo_args "in/list.TXT" "out.png" false) true s'.
Proof.
  intros E s'. split.
  - apply (main_directory_and_single_file E (Demo.demo_args "in" "out" false)
             Demo.start tt tt eq_refl eq_refl).
    reflexivity.
  - apply (main_directory_and_single_file E
             (Demo.demo_args "in/list.TXT" "out.png" false)
             Demo.start tt tt eq_refl eq_refl).
    + reflexivity.
    + apply (bool_decide_unpack _). vm_compute. exact I.
Defined.

Lemma main_raises_IndexError_on_blank_row_witness :
  let E := Worlds.with_rows quiet_world [["in/1.png"]; []; ["in/2.png"]] in
  let a := Demo.demo_args "list.txt" "out" false in
  Cli.main E a Demo.start
  = (Raise IndexError,
     Cli.mkState [Cli.EvWaifu2x "/opt/waifu2x/pretrained_models/swin_unet/art";
                  Cli.EvLoadModel "noise_scale" 0;
                  Cli.EvOpenList "list.txt"] []).
Proof.
  intros E a.
  apply (main_raises_IndexError_on_blank_row E a Demo.start tt tt
           [["in/1.png"]] [["in/2.png"]]).
  - reflexivity.
  - reflexivity.
  - reflexivity.
  - apply list_elem_of_here.
  - reflexivity.
  - apply Forall_cons. split; [discriminate|apply Forall_nil_2].
Defined.

(** ** The downscaling test ([waifu2x/training/downscaling_test.py]) *)

Lemma string_app_cons (x : ascii) (a b : string) :
  String x a +:+ b = String x (a +:+ b).
Proof. reflexivity. Qed.

Lemma string_app_assoc (a b c : string) : (a +:+ b) +:+ c = a +:+ b +:+ c.
Proof.
  induction a as [|x a IH]; [done|]. rewrite !string_app_cons. by rewrite IH.
Qed.

Lemma string_app_inj (a b c : string) : a +:+ b = a +:+ c → b = c.
Proof.
  induction a as [|x a IH]; [done|]. rewrite !string_app_cons.
  intros [= H]. by apply IH.
Qed.

Lemma chars_cons (x : ascii) (a : string) : Cli.chars (String x a) = x :: Cli.chars a.
Proof. reflexivity. Qed.

(** What [posixpath.join] puts before a relative second argument. *)
Definition join_dir (a : string) : string :=
  match last (Cli.chars a) with
  | None => a
  | Some d => if decide (d = "/"%char) then a else a +:+ "/"
  end.

Lemma path_join_relative (a : string) (c : ascii) (b : string) :
  c ≠ "/"%char → Cli.path_join a (String c b) = join_dir a +:+ String c b.
Proof.
  intros Hc. unfold Cli.path_join, join_dir. rewrite chars_cons.
  assert (Hm : ∀ X (x y : X),
            match c :: Cli.chars b with "/"%char :: _ => x | _ => y end = y).
  { intros X x y. destruct c as [[] [] [] [] [] [] [] []]; try done. }
  rewrite Hm. destruct (last (Cli.chars a)) as [d|]; [|done].
  destruct (decide (d = "/"%char)); [done|]. by rewrite string_app_assoc.
Qed.

Lemma path_join_absolute (a b : string) :
  Cli.path_join a (String "/" b) = String "/" b.
Proof. reflexivity. Qed.

(** Joined to a directory, names with a common beginning keep a common
    beginning. *)
Lemma path_join_common_prefix (dir root : string) :
  ∃ pre, ∀ rest, Cli.path_join dir (root +:+ String "_" rest) = pre +:+ String "_" rest.
Proof.
  destruct root as [|c root].
  - exists (join_dir dir). intros rest.
    change ("" +:+ String "_" rest) with (String "_" rest).
    by apply path_join_relative.
  - destruct (decide (c = "/"%char)) as [->|Hc].
    + exists (String "/" root). intros rest. apply path_join_absolute.
    + exists (join_dir dir +:+ String c root). intros rest.
      rewrite string_app_assoc, !string_app_cons.
      by apply path_join_relative.
Qed.

Section DownscalingRun.
Import Downscaling DownscalingTest.
Context {pixel : Type}.
Variable load_image_simple : string → result xerr (image pixel).
Variable tensor_shape : image pixel → Z * Z * Z.
Variable resize_and_save : output → result xerr unit.

(** The fifteen outputs [downscaling_test] sets out to write. *)
Definition planned (shape : Z * Z * Z) (filename output_dir : string) (scale : Z)
    : list output :=
  filter_type ← filter_types;
  blur ← blurs;
  [wand_scale_output shape filename output_dir filter_type scale blur].

Lemma until_error_prefix (f : output → result xerr unit) (outs : list output) :
  (until_error ((λ o, match f o with Ok _ => Ok o | Raise e => Raise e end) <$> outs)).1
    `prefix_of` outs
  ∧ ((until_error ((λ o, match f o with Ok _ => Ok o | Raise e => Raise e end) <$> outs)).2
       = None →
     (until_error ((λ o, match f o with Ok _ => Ok o | Raise e => Raise e end) <$> outs)).1
       = outs).
Proof.
  induction outs as [|o outs [IH1 IH2]]; [done|]. cbn.
  destruct (f o) as [[]|e]; cbn.
  - destruct (until_error _) as [done err]. cbn in *. split.
    + by apply prefix_cons.
    + intros ->. by rewrite IH2.
  - split; [apply prefix_nil|done].
Qed.

Lemma downscaling_test_planned fill filename output_dir scale im :
  load_image_simple filename = Ok im →
  let run := downscaling_test load_image_simple tensor_shape resize_and_save
               fill filename output_dir scale in
  let plan := planned (tensor_shape (modcrop fill im)) filename output_dir scale in
  run.1 `prefix_of` plan ∧ (run.2 = None → run.1 = plan).
Proof.
  intros Hload run plan. subst run. unfold downscaling_test. rewrite Hload.
  apply (until_error_prefix resize_and_save plan).
Qed.

(** X14.  [modcrop] makes the downscaling exact: for a scale of 2 or 4 the
    size [downscaling_test] asks [wand_scale] for, multiplied by the scale,
    is the size of the cropped image (the width and height of the input
    rounded down to multiples of four), so the floor division drops no
    row and no column. *)
Theorem downscaling_test_sizes_are_exact
    (fill : pixel) (filename output_dir : string) (scale : Z)
    (im : image pixel) (c : Z) :
  load_image_simple filename = Ok im →
  wf_image im →
  scale = 2 ∨ scale = 4 →
  tensor_shape (modcrop fill im)
    = (c, height (modcrop fill im), width (modcrop fill im)) →
  ∀ out,
    out ∈ (downscaling_test load_image_simple tensor_shape resize_and_save
             fill filename output_dir scale).1 →
    scale * (out_size out).1 = 4 * (height im `div` 4)
    ∧ scale * (out_size out).2 = 4 * (width im `div` 4).
Proof.
  intros Hload Hwf Hscale Hshape out Hout.
  destruct (downscaling_test_planned fill filename output_dir scale im Hload)
    as [[rest Hpre] _].
  assert (Hin : out ∈ planned (tensor_shape (modcrop fill im))
                        filename output_dir scale)
    by (rewrite Hpre; apply elem_of_app; by left).
  unfold planned in Hin.
  apply list_elem_of_bind in Hin as (filter_type & Hin & _).
  apply list_elem_of_bind in Hin as (blur & Hin & _).
  apply list_elem_of_singleton in Hin. subst out.
  assert (Hh : height (modcrop fill im) = 4 * (height im `div` 4))
    by (unfold height at 1; by rewrite modcrop_size).
  assert (Hw : width (modcrop fill im) = 4 * (width im `div` 4))
    by (unfold width at 1; by rewrite modcrop_size).
  unfold wand_scale_output. rewrite Hshape, Hh, Hw. cbn [out_size fst snd].
  generalize (height im `div` 4) (width im `div` 4). intros h4 w4.
  destruct Hscale as [-> | ->].
  - replace (4 * h4) with (2 * h4 * 2) by lia.
    replace (4 * w4) with (2 * w4 * 2) by lia.
    rewrite !Z.div_mul by lia. lia.
  - rewrite !(Z.mul_comm 4), !Z.div_mul by lia. lia.
Qed.

(** X15.  [downscaling_test] writes at most fifteen files for an input
    (five filters times three blurs), fifteen when no call raises, and
    their paths are pairwise different: no output overwrites another. *)
Theorem downscaling_test_outputs_are_distinct
    (fill : pixel) (filename output_dir : string) (scale : Z) (im : image pixel) :
  load_image_simple filename = Ok im →
  let run := downscaling_test load_image_simple tensor_shape resize_and_save
               fill filename output_dir scale in
  NoDup (out_path <$> run.1)
  ∧ (length run.1 ≤ 15)%nat
  ∧ (run.2 = None → length run.1 = 15%nat).
Proof.
  intros Hload run.
  destruct (downscaling_test_planned fill filename output_dir scale im Hload)
    as [[rest Hpre] Hall].
  fold run in Hpre, Hall.
  set (plan := planned (tensor_shape (modcrop fill im)) filename output_dir scale) in *.
  assert (Hlen : length plan = 15%nat) by reflexivity.
  assert (Hnd : NoDup (out_path <$> plan)).
  { set (root := (Cli.splitext (Cli.basename filename)).1).
    destruct (path_join_common_prefix output_dir root) as [pre Hpre'].
    set (suffixes := filter_type ← filter_types;
                     blur ← blurs;
                     [filter_type +:+ "_blur" +:+ blur +:+ ".png"]).
    assert (Hpaths : out_path <$> plan =
              (λ rest, Cli.path_join output_dir (root +:+ String "_" rest))
                <$> suffixes).
    { subst plan. unfold planned, wand_scale_output.
      destruct (tensor_shape (modcrop fill im)) as [[c h] w]. reflexivity. }
    rewrite Hpaths.
    rewrite (list_fmap_ext _ (λ rest, pre +:+ String "_" rest) suffixes)
      by (intros i x _; apply Hpre').
    apply NoDup_fmap_2_strong.
    - intros x y _ _ Heq. apply string_app_inj in Heq. by injection Heq.
    - apply (bool_decide_unpack _). vm_compute. exact I. }
  rewrite Hpre in Hnd, Hlen. rewrite fmap_app in Hnd. apply NoDup_app in Hnd as [Hnd _].
  rewrite length_app in Hlen.
  split; [exact Hnd|]. split; [lia|].
  intros Hnone. rewrite (Hall Hnone). reflexivity.
Qed.

End DownscalingRun.

(** *** The further properties on the example image *)

Definition example_load : string → result xerr (Downscaling.image Z) :=
  λ _, Ok example_image.

Definition example_shape : Downscaling.image Z → Z * Z * Z :=
  λ im, (3, Downscaling.height im, Downscaling.width im).

Definition example_save : DownscalingTest.output → result xerr unit :=
  λ out, if decide (DownscalingTest.out_filter out = "catrom")
         then Raise "no such filter" else Ok tt.

Lemma downscaling_test_sizes_are_exact_witness :
  let out := DownscalingTest.mkOutput (2, 2) "sinc" "0.95" "out/a_sinc_blur0.95.png" in
  2 * (DownscalingTest.out_size out).1 = 4 * (5 `div` 4)
  ∧ 2 * (DownscalingTest.out_size out).2 = 4 * (6 `div` 4).
Proof.
  intros out.
  apply (downscaling_test_sizes_are_exact example_load example_shape example_save
           0 "in/a.png" "out" 2 example_image 3).
  - reflexivity.
  - apply example_image_wf.
  - by left.
  - reflexivity.
  - vm_compute. do 4 apply list_elem_of_further. apply list_elem_of_here.
Defined.

Lemma downscaling_test_outputs_are_distinct_witness :
  let run := DownscalingTest.downscaling_test example_load example_shape example_save
               0 "in/a.png" "out" 4 in
  NoDup (DownscalingTest.out_path <$> run.1)
  ∧ (length run.1 ≤ 15)%nat
  ∧ length run.1 = 9%nat
  ∧ run.2 = Some "no such filter".
Proof.
  intros run.
  destruct (downscaling_test_outputs_are_distinct example_load example_shape
              example_save 0 "in/a.png" "out" 4 example_image eq_refl)
    as (Hnd & Hle & _).
  split; [exact Hnd|]. split; [exact Hle|]. split; reflexivity.
Defined.
